(** * Concurrent-ATM-Go: a shallow embedding of [main.go]

    The program reads transactions from a CSV file in one goroutine
    ([produce]), hands them over an unbuffered channel to a pool of
    goroutines ([consume]) that apply them to the shared map [accountList]
    under one weighted semaphore per account, and prints the map once a
    value arrives on the [done] channel.

    Go's [int] is modelled as [Z] (64-bit, the wrap-around of [userID-1]
    written out), [float64] as Rocq's primitive binary64 floats, the map as
    a [gmap], the slice of semaphores as a list.  The goroutines are
    modelled as an interleaving transition system: every actor has a
    program counter, and one step of an actor is one access to shared
    state. *)

From Stdlib Require Import ZArith QArith Floats Uint63 Ascii.
From stdpp Require Import gmap strings list fin_maps.

Local Open Scope Z_scope.

#[local] Set Warnings "-inexact-float".

(** ** Data model (main.go, lines 18-29) *)

Record account := Account {
  account_id : Z;
  account_name : string;
  account_value : float
}.

Record transaction := Transaction {
  transaction_id : Z;
  transaction_value : float;
  transactionType : Z;
  userID : Z
}.

(** The seed ledger, entry by entry as in the source (lines 37-78). *)
Definition accountList : gmap Z account :=
  list_to_map [
    (1, Account 1 "Yuri" 200000.00%float);
    (2, Account 2 "Raphael" 130000.00%float);
    (3, Account 3 "Dalton" 150000.00%float);
    (4, Account 4 "Maranhão" 170000.00%float);
    (5, Account 5 "Fernando" 1.00%float);
    (6, Account 6 "Cordeiro" 5000000.00%float);
    (7, Account 7 "Christian" 20000.00%float);
    (8, Account 7 "Paula" 27000.00%float)
  ].

Definition consumerCount : nat := 50.

(** ** Go primitives used by the program *)

(** Go's [int] on a 64-bit platform. *)
Definition is_int (z : Z) : Prop := - 2 ^ 63 <= z < 2 ^ 63.

Definition wrap_int (z : Z) : Z := (z + 2 ^ 63) mod 2 ^ 64 - 2 ^ 63.

(** Indexing a map with an absent key yields the zero value of the
    element type. *)
Definition zero_account : account := Account 0 "" 0%float.

Definition map_index (m : gmap Z account) (k : Z) : account :=
  default zero_account (m !! k).

(** [x >= y] on float64 (false as soon as one side is NaN). *)
Definition float_ge (x y : float) : bool := PrimFloat.leb y x.

(** ** The business rules (main.go, lines 163-208)

    [withdraw] and [deposit] read the account under the read lock and write
    it back under the write lock; the two accesses are separate steps of
    the concurrent model below, and their composition is the function a
    goroutine computes when nothing interleaves. *)

Definition withdraw_write (transactionData : transaction) (accountData : account)
    (m : gmap Z account) : gmap Z account :=
  if float_ge (account_value accountData) (transaction_value transactionData) then
    let updatedAccountData :=
      Account (account_id accountData) (account_name accountData)
              (account_value accountData - transaction_value transactionData)%float in
    <[userID transactionData := updatedAccountData]> m
  else m.

Definition withdraw (transactionData : transaction) (m : gmap Z account) : gmap Z account :=
  withdraw_write transactionData (map_index m (userID transactionData)) m.

Definition deposit_write (transactionData : transaction) (accountData : account)
    (m : gmap Z account) : gmap Z account :=
  let updatedAccountData :=
    Account (account_id accountData) (account_name accountData)
            (account_value accountData + transaction_value transactionData)%float in
  <[userID transactionData := updatedAccountData]> m.

Definition deposit (transactionData : transaction) (m : gmap Z account) : gmap Z account :=
  deposit_write transactionData (map_index m (userID transactionData)) m.

(** The [switch] of [consume] (lines 146-151): 1 is a withdrawal, 2 a
    deposit, any other code does nothing. *)
Definition apply_transaction (transactionData : transaction) (m : gmap Z account)
    : gmap Z account :=
  match transactionType transactionData with
  | 1 => withdraw transactionData m
  | 2 => deposit transactionData m
  | _ => m
  end.

(** A single consumer draining the channel with nobody else running. *)
Definition apply_stream (ts : list transaction) (m : gmap Z account) : gmap Z account :=
  foldl (fun acc t => apply_transaction t acc) m ts.

(** ** External packages

    [strconv.Atoi] and [strconv.ParseFloat] belong to Go's standard library,
    not to this repository: they are parameters of the model ([None] is a
    non-nil [err]).  [csv.Reader.Read] is modelled by the list of rows it
    returns before [io.EOF]; the program ignores every other error of
    [Read], so a row is whatever [Read] returned with it (the nil slice
    included). *)

Class Strconv := {
  Atoi : string -> option Z;
  ParseFloat : string -> option float
}.

(** [golang.org/x/sync/semaphore.Weighted], the two counters that [Acquire]
    and [Release] work on.  The queue of waiters only orders the goroutines
    that are blocked: it is left out, and any blocked goroutine may take a
    permit that has become free. *)
Record Weighted := { sem_size : Z; sem_cur : Z }.

Definition NewWeighted (n : Z) : Weighted := {| sem_size := n; sem_cur := 0 |}.

(** [Acquire(ctx, 1)] with a context that is never cancelled: [None] when
    the caller has to wait. *)
Definition Acquire (w : Weighted) : option Weighted :=
  if 1 <=? sem_size w - sem_cur w
  then Some {| sem_size := sem_size w; sem_cur := sem_cur w + 1 |}
  else None.

(** How a statement of a goroutine ends: normally, in [log.Fatal]
    ([os.Exit(1)]), or in a run-time panic.  Both failures end the whole
    process. *)
Inductive outcome (A : Type) : Type :=
  | Value (a : A)
  | LogFatal
  | RuntimePanic.
Arguments Value {A} a.
Arguments LogFatal {A}.
Arguments RuntimePanic {A}.

Definition bind {A B : Type} (x : outcome A) (f : A -> outcome B) : outcome B :=
  match x with
  | Value a => f a
  | LogFatal => LogFatal
  | RuntimePanic => RuntimePanic
  end.

Notation "x <-- e1 ;; e2" := (bind e1 (fun x => e2))
  (at level 100, e1 at next level, right associativity).

(** [Release(1)]: panics when more is released than is held. *)
Definition Release (w : Weighted) : outcome Weighted :=
  let c := sem_cur w - 1 in
  if c <? 0 then RuntimePanic
  else Value {| sem_size := sem_size w; sem_cur := c |}.

(** [row[i]]: an index out of range panics. *)
Definition row_index (row : list string) (i : nat) : outcome string :=
  match row !! i with
  | Some f => Value f
  | None => RuntimePanic
  end.

(** [if err != nil { log.Fatal(err) }] after a call of [strconv]. *)
Definition or_fatal {A : Type} (r : option A) : outcome A :=
  match r with
  | Some a => Value a
  | None => LogFatal
  end.

(** [semaphores[idx]] with Go's bounds check. *)
Definition sem_index (sems : list Weighted) (idx : Z) : outcome Weighted :=
  if idx <? 0 then RuntimePanic
  else match sems !! Z.to_nat idx with
       | Some w => Value w
       | None => RuntimePanic
       end.

(** The index expression [transactionData.userID-1] of lines 141 and 156. *)
Definition permit_index (t : transaction) : Z := wrap_int (userID t - 1).

(** ** The goroutines as a transition system *)

(** Where [produce] stands: about to call [csvr.Read] (the rows still to
    come), blocked in the send of line 127, or returned after
    [close(transactionChannel)]. *)
Inductive produce_pc :=
  | PRead (rows : list (list string))
  | PSend (transactionData : transaction) (rows : list (list string))
  | PClosed.

(** Where a [consume] goroutine stands.  [CWithdrawWrite] and
    [CDepositWrite] carry the snapshot [accountData] read one step
    earlier. *)
Inductive consume_pc :=
  | CRange
  | CAcquire (transactionData : transaction)
  | CSwitch (transactionData : transaction)
  | CWithdrawRead (transactionData : transaction)
  | CWithdrawWrite (transactionData : transaction) (accountData : account)
  | CDepositRead (transactionData : transaction)
  | CDepositWrite (transactionData : transaction) (accountData : account)
  | CRelease (transactionData : transaction)
  | CDone
  | CReturned.

(** [main] after it has started the goroutines: blocked in [<-done], or
    about to print the final map. *)
Inductive main_pc :=
  | MWait
  | MReport.

(** The process: running, ended by the return of [main] (with the map that
    line 243 printed), or ended by [log.Fatal] or a panic. *)
Inductive phase :=
  | Running
  | Finished (final : gmap Z account)
  | Fatal
  | Panicked.

Record state := State {
  st_phase : phase;
  st_produce : produce_pc;
  st_consume : list consume_pc;
  st_main : main_pc;
  semaphores : list Weighted;
  st_accountList : gmap Z account
}.

Definition set_phase (p : phase) (s : state) : state :=
  State p (st_produce s) (st_consume s) (st_main s) (semaphores s) (st_accountList s).

Definition set_produce (p : produce_pc) (s : state) : state :=
  State (st_phase s) p (st_consume s) (st_main s) (semaphores s) (st_accountList s).

Definition set_consume (i : nat) (pc : consume_pc) (s : state) : state :=
  State (st_phase s) (st_produce s) (<[i := pc]> (st_consume s)) (st_main s)
        (semaphores s) (st_accountList s).

Definition set_main (p : main_pc) (s : state) : state :=
  State (st_phase s) (st_produce s) (st_consume s) p (semaphores s) (st_accountList s).

Definition set_semaphore (j : nat) (w : Weighted) (s : state) : state :=
  State (st_phase s) (st_produce s) (st_consume s) (st_main s)
        (<[j := w]> (semaphores s)) (st_accountList s).

Definition set_accountList (m : gmap Z account) (s : state) : state :=
  State (st_phase s) (st_produce s) (st_consume s) (st_main s) (semaphores s) m.

(** A statement that ended in a failure ends the process. *)
Definition finish {A : Type} (r : outcome A) (k : A -> option state) (s : state)
    : option state :=
  match r with
  | Value a => k a
  | LogFatal => Some (set_phase Fatal s)
  | RuntimePanic => Some (set_phase Panicked s)
  end.

(** The permit a consumer holds, between its [Acquire] and its [Release]. *)
Definition holds (pc : consume_pc) : option transaction :=
  match pc with
  | CSwitch t | CWithdrawRead t | CWithdrawWrite t _
  | CDepositRead t | CDepositWrite t _ | CRelease t => Some t
  | CRange | CAcquire _ | CDone | CReturned => None
  end.

Definition holds_at (idx : Z) (pc : consume_pc) : bool :=
  match holds pc with
  | Some t => bool_decide (permit_index t = idx)
  | None => false
  end.

Definition is_returned (pc : consume_pc) : bool :=
  match pc with CReturned => true | _ => false end.

(** Number of consumers whose program counter satisfies [P]. *)
Fixpoint count_pc (P : consume_pc -> bool) (cs : list consume_pc) : Z :=
  match cs with
  | [] => 0
  | pc :: cs' => (if P pc then 1 else 0) + count_pc P cs'
  end.

(** Held permits of the semaphore at index [idx]. *)
Definition holders (idx : Z) (cs : list consume_pc) : Z := count_pc (holds_at idx) cs.

Inductive actor :=
  | Producer
  | Consumer (i : nat)
  | Main.

(** ** Invariants of the transition system *)

(** The permits are accounted for: every semaphore has weight 1 and its
    counter is the number of consumers between [Acquire] and [Release] on
    it, and a consumer in that section indexes inside the slice. *)
Definition permits_inv (sems : list Weighted) (cs : list consume_pc) : Prop :=
  (forall (j : nat) w, sems !! j = Some w ->
     sem_size w = 1 /\ 0 <= sem_cur w <= 1 /\ sem_cur w = holders (Z.of_nat j) cs)
  /\ (forall i pc t, cs !! i = Some pc -> holds pc = Some t ->
        0 <= permit_index t /\ (Z.to_nat (permit_index t) < length sems)%nat).

(** [main] receives from [done] once: the consumer whose send it takes is
    the only one that ever returns. *)
Definition done_inv (s : state) : Prop :=
  count_pc is_returned (st_consume s)
  = match st_main s with MWait => 0 | MReport => 1 end.

(** What a consumer inside [withdraw] or [deposit] knows: the type that the
    [switch] tested, and, once it has read, that its snapshot is the entry
    of its account in the map [m]. *)
Definition cycle_ok (m : gmap Z account) (pc : consume_pc) : Prop :=
  match pc with
  | CWithdrawRead t => transactionType t = 1
  | CWithdrawWrite t accountData =>
      transactionType t = 1 /\ accountData = map_index m (userID t)
  | CDepositRead t => transactionType t = 2
  | CDepositWrite t accountData =>
      transactionType t = 2 /\ accountData = map_index m (userID t)
  | _ => True
  end.

Definition cycle_inv (s : state) : Prop :=
  forall i pc, st_consume s !! i = Some pc -> cycle_ok (st_accountList s) pc.

Section Program.
Context {strconv : Strconv}.

(** The body of the loop of [produce] between [Read] and the send
    (lines 99-124). *)
Definition parse_row (row : list string) : outcome transaction :=
  f0 <-- row_index row 0 ;;
  id <-- or_fatal (Atoi f0) ;;
  f1 <-- row_index row 1 ;;
  value <-- or_fatal (ParseFloat f1) ;;
  f2 <-- row_index row 2 ;;
  transactionType <-- or_fatal (Atoi f2) ;;
  f3 <-- row_index row 3 ;;
  userID <-- or_fatal (Atoi f3) ;;
  Value (Transaction id value transactionType userID).

(** One step of [produce].  The send itself is the step of the consumer
    that receives. *)
Definition step_produce (s : state) : option state :=
  match st_produce s with
  | PRead [] => Some (set_produce PClosed s)
  | PRead (row :: rows) =>
      finish (parse_row row) (fun t => Some (set_produce (PSend t rows) s)) s
  | PSend _ _ => None
  | PClosed => None
  end.

(** One step of the [i]-th [consume] goroutine; [None] when it is blocked
    or has returned. *)
Definition step_consume (i : nat) (s : state) : option state :=
  match st_consume s !! i with
  | None => None
  | Some CRange =>
      match st_produce s with
      | PSend t rows => Some (set_consume i (CAcquire t) (set_produce (PRead rows) s))
      | PClosed => Some (set_consume i CDone s)
      | PRead _ => None
      end
  | Some (CAcquire t) =>
      finish (sem_index (semaphores s) (permit_index t))
        (fun w => match Acquire w with
                  | Some w' =>
                      Some (set_consume i (CSwitch t)
                              (set_semaphore (Z.to_nat (permit_index t)) w' s))
                  | None => None
                  end) s
  | Some (CSwitch t) =>
      match transactionType t with
      | 1 => Some (set_consume i (CWithdrawRead t) s)
      | 2 => Some (set_consume i (CDepositRead t) s)
      | _ => Some (set_consume i (CRelease t) s)
      end
  | Some (CWithdrawRead t) =>
      Some (set_consume i (CWithdrawWrite t (map_index (st_accountList s) (userID t))) s)
  | Some (CWithdrawWrite t accountData) =>
      Some (set_consume i (CRelease t)
              (set_accountList (withdraw_write t accountData (st_accountList s)) s))
  | Some (CDepositRead t) =>
      Some (set_consume i (CDepositWrite t (map_index (st_accountList s) (userID t))) s)
  | Some (CDepositWrite t accountData) =>
      Some (set_consume i (CRelease t)
              (set_accountList (deposit_write t accountData (st_accountList s)) s))
  | Some (CRelease t) =>
      finish (w <-- sem_index (semaphores s) (permit_index t) ;; Release w)
        (fun w' => Some (set_consume i CRange
                           (set_semaphore (Z.to_nat (permit_index t)) w' s))) s
  | Some CDone =>
      match st_main s with
      | MWait => Some (set_consume i CReturned (set_main MReport s))
      | MReport => None
      end
  | Some CReturned => None
  end.

(** [main] reads the map for the final print and returns, which ends the
    process.  In [MWait] it is blocked until a consumer sends on
    [done].  The print of line 243 reads the map without [mapMutex]; it is
    taken here as one read of the whole map, which is what the source does
    when no consumer writes during the print and is an idealisation
    otherwise. *)
Definition step_main (s : state) : option state :=
  match st_main s with
  | MWait => None
  | MReport => Some (set_phase (Finished (st_accountList s)) s)
  end.

Definition step (a : actor) (s : state) : option state :=
  match st_phase s with
  | Running =>
      match a with
      | Producer => step_produce s
      | Consumer i => step_consume i s
      | Main => step_main s
      end
  | _ => None
  end.

(** A schedule is the list of actors in the order they move. *)
Fixpoint run (sched : list actor) (s : state) : option state :=
  match sched with
  | [] => Some s
  | a :: sched' =>
      match step a s with
      | Some s' => run sched' s'
      | None => None
      end
  end.

Definition reachable (s0 s : state) : Prop :=
  exists sched, run sched s0 = Some s.

(** The state [main] leaves behind at line 241: one semaphore of weight 1
    per entry of the map, the producer and [n] consumers started. *)
Definition boot (n : nat) (seed : gmap Z account) (csv : list (list string)) : state :=
  State Running (PRead csv) (replicate n CRange) MWait
        (replicate (size seed) (NewWeighted 1)) seed.

Definition main (csv : list (list string)) : state :=
  boot consumerCount accountList csv.

(** The steps of one pass of the [i]-th consumer through the body of its
    loop: [Acquire], the [switch], the read and the write of [withdraw]
    or [deposit], [Release]. *)
Definition consume_cycle (i : nat) (t : transaction) : list actor :=
  match transactionType t with
  | 1 | 2 => replicate 5 (Consumer i)
  | _ => replicate 3 (Consumer i)
  end.

(** A record of the input one of whose four fields [strconv] rejects. *)
Definition field_parses (k : nat) (f : string) : Prop :=
  match k with
  | 1%nat => is_Some (ParseFloat f)
  | _ => is_Some (Atoi f)
  end.

Definition malformed (row : list string) : Prop :=
  exists (k : nat) (f : string),
    (k < 4)%nat /\ row !! k = Some f /\ ~ field_parses k f.

End Program.

(** ** Balances of one account *)

(** What one transaction does to the balance of the account it names. *)
Definition balance_step (b : float) (t : transaction) : float :=
  match transactionType t with
  | 1 => if float_ge b (transaction_value t) then (b - transaction_value t)%float else b
  | 2 => (b + transaction_value t)%float
  | _ => b
  end.

(** The balance after a stream, every operation in float64 and in the order
    of application. *)
Definition balance_after (ts : list transaction) (seed : float) : float :=
  foldl balance_step seed ts.

(** The formula of the specification, read in float64: the amounts of the
    deposits, the amounts of the withdrawals that were applied, each list
    summed, and [seed + deposits - withdrawals]. *)
Definition deposit_amounts (ts : list transaction) : list float :=
  transaction_value <$> filter (fun t => transactionType t = 2) ts.

Fixpoint applied_withdrawals (b : float) (ts : list transaction) : list float :=
  match ts with
  | [] => []
  | t :: ts' =>
      (if bool_decide (transactionType t = 1) && float_ge b (transaction_value t)
       then [transaction_value t] else [])
      ++ applied_withdrawals (balance_step b t) ts'
  end.

Definition float_sum (l : list float) : float := foldl PrimFloat.add 0%float l.

Definition spec_final_balance (seed : float) (ts : list transaction) : float :=
  (seed + float_sum (deposit_amounts ts) - float_sum (applied_withdrawals seed ts))%float.

(** The same formula in exact arithmetic: the rational a finite float
    stands for. *)
Definition float_to_Q (f : float) : option Q :=
  match Prim2SF f with
  | S754_zero _ => Some 0%Q
  | S754_finite sign m e =>
      Some ((if sign then -1 else 1) * inject_Z (Z.pos m) * Qpower 2 e)%Q
  | S754_infinity _ | S754_nan => None
  end.

Definition Q_sum (l : list float) : Q :=
  foldl (fun acc f => (acc + default 0%Q (float_to_Q f))%Q) 0%Q l.

Definition spec_final_balance_exact (seed : float) (ts : list transaction) : Q :=
  (default 0%Q (float_to_Q seed) + Q_sum (deposit_amounts ts)
   - Q_sum (applied_withdrawals seed ts))%Q.

(** ** An instance of [Strconv] for the examples

    [decimal_Atoi] is [strconv.Atoi]: an optional sign, at least one
    decimal digit, nothing else, and a range error outside [int].
    [decimal_ParseFloat] covers only the unsigned integer literals below
    2^53, which float64 represents exactly. *)

Definition digit_of (a : ascii) : option Z :=
  let n := Z.of_nat (nat_of_ascii a) in
  if (48 <=? n) && (n <=? 57) then Some (n - 48) else None.

Fixpoint digits_value (acc : Z) (s : string) : option Z :=
  match s with
  | EmptyString => Some acc
  | String a s' =>
      match digit_of a with
      | Some d => digits_value (10 * acc + d) s'
      | None => None
      end
  end.

Definition signed_value (neg : bool) (s : string) : option Z :=
  match s with
  | EmptyString => None
  | _ =>
      match digits_value 0 s with
      | Some v =>
          let z := if neg then - v else v in
          if (- 2 ^ 63 <=? z) && (z <? 2 ^ 63) then Some z else None
      | None => None
      end
  end.

Definition decimal_Atoi (s : string) : option Z :=
  match s with
  | String "-"%char s' => signed_value true s'
  | String "+"%char s' => signed_value false s'
  | _ => signed_value false s
  end.

Definition decimal_ParseFloat (s : string) : option float :=
  match s with
  | EmptyString => None
  | _ =>
      match digits_value 0 s with
      | Some v => if v <? 2 ^ 53 then Some (PrimFloat.of_uint63 (Uint63.of_Z v)) else None
      | None => None
      end
  end.

Definition decimal_strconv : Strconv :=
  {| Atoi := decimal_Atoi; ParseFloat := decimal_ParseFloat |}.

(** ** Inputs, schedules and states of the examples *)

Definition deposit_30_on_1 : transaction := Transaction 1 30%float 2 1.
Definition withdraw_20_on_1 : transaction := Transaction 2 20%float 1 1.
Definition deposit_30_on_9 : transaction := Transaction 1 30%float 2 9.

(** [result.csv] with the single record [1,30,2,1]. *)
Definition one_deposit_csv : list (list string) := [["1"; "30"; "2"; "1"]].

(** [produce] parses the record and consumer 0 receives it, takes the
    permit of account 1 and enters [deposit], where it sleeps; [produce]
    reaches the end of the file and closes the channel; consumer 1 leaves
    its loop and sends on [done]; [main] receives and prints. *)
Definition early_report_schedule : list actor :=
  [Producer; Consumer 0; Consumer 0; Consumer 0;
   Producer; Consumer 1; Consumer 1; Main].

(** Two records on account 1 and two consumers: consumer 0 holds the
    permit, consumer 1 has received the second transaction and waits. *)
Definition contended_csv : list (list string) :=
  [["1"; "30"; "2"; "1"]; ["2"; "20"; "1"; "1"]].

Definition contended_schedule : list actor :=
  [Producer; Consumer 0; Consumer 0; Producer; Consumer 1].

Definition contended_state : state :=
  State Running (PRead []) [CSwitch deposit_30_on_1; CAcquire withdraw_20_on_1] MWait
        ({| sem_size := 1; sem_cur := 1 |} :: replicate 7 (NewWeighted 1)) accountList.

(** A consumer that has received a transaction on account 9. *)
Definition unknown_account_state : state :=
  State Running (PRead []) [CAcquire deposit_30_on_9; CRange] MWait
        (replicate 8 (NewWeighted 1)) accountList.

(** [produce] in front of a record whose amount is not a number. *)
Definition malformed_amount_row : list string := ["1"; "abc"; "2"; "1"].

Definition malformed_amount_state : state :=
  boot 2 accountList [malformed_amount_row; ["2"; "20"; "1"; "1"]].

(** ** What a transaction does to the entry of its account *)

(** The entry under [userID] after [apply_transaction], from the entry
    before ([None]: the key is absent, and the read yields the zero
    account). *)
Definition entry_after (t : transaction) (o : option account) : option account :=
  let accountData := default zero_account o in
  match transactionType t with
  | 1 =>
      if float_ge (account_value accountData) (transaction_value t)
      then Some (Account (account_id accountData) (account_name accountData)
                   (account_value accountData - transaction_value t)%float)
      else o
  | 2 =>
      Some (Account (account_id accountData) (account_name accountData)
              (account_value accountData + transaction_value t)%float)
  | _ => o
  end.

(** ** The stream between [produce] and the consumers *)

(** The records [produce] has not read yet, and the transaction it is
    blocked sending, if any. *)
Definition unread (p : produce_pc) : list (list string) :=
  match p with
  | PRead rows | PSend _ rows => rows
  | PClosed => []
  end.

Definition offered (p : produce_pc) : list transaction :=
  match p with
  | PSend t _ => [t]
  | _ => []
  end.

(** The transaction a consumer has received and not finished. *)
Definition pc_transaction (pc : consume_pc) : option transaction :=
  match pc with
  | CAcquire t => Some t
  | _ => holds pc
  end.

(** The transaction that passes over the channel in the step of [a], and
    the transactions that pass along a schedule, in that order. *)
Definition handoff (a : actor) (s : state) : list transaction :=
  match a with
  | Consumer i =>
      match st_consume s !! i, st_produce s with
      | Some CRange, PSend t _ => [t]
      | _, _ => []
      end
  | _ => []
  end.

Fixpoint handoffs {strconv : Strconv} (sched : list actor) (s : state)
    : list transaction :=
  match sched with
  | [] => []
  | a :: sched' =>
      match step a s with
      | Some s' => handoff a s ++ handoffs sched' s'
      | None => []
      end
  end.

(** Every record that is still to be read satisfies [R], and every
    transaction that is on its way satisfies [P]. *)
Definition tx_inv (R : list string -> Prop) (P : transaction -> Prop) (s : state) : Prop :=
  Forall R (unread (st_produce s))
  /\ Forall P (offered (st_produce s))
  /\ (forall i pc t, st_consume s !! i = Some pc -> pc_transaction pc = Some t -> P t).

(** A consumer leaves its loop, and [main] prints, only once the channel is
    closed. *)
Definition closed_inv (s : state) : Prop :=
  (forall i pc, st_consume s !! i = Some pc -> pc = CDone \/ pc = CReturned ->
                st_produce s = PClosed)
  /\ (st_main s = MReport -> st_produce s = PClosed)
  /\ (forall final, st_phase s = Finished final ->
                    st_main s = MReport /\ final = st_accountList s).

(** ** Well-formed input *)

(** A transaction on one of the seed accounts 1..[size seed], and a record
    that parses to one. *)
Definition known_account (seed : gmap Z account) (t : transaction) : Prop :=
  1 <= userID t <= Z.of_nat (size seed).

Definition good_record {strconv : Strconv} (seed : gmap Z account)
    (row : list string) : Prop :=
  exists t, parse_row row = Value t /\ known_account seed t.

(** What the program never changes in an account. *)
Definition id_name (a : account) : Z * string := (account_id a, account_name a).

(** What [strconv.Atoi] guarantees about its result: it is an [int]. *)
Definition atoi_in_range {strconv : Strconv} : Prop :=
  forall s z, Atoi s = Some z -> is_int z.

(** ** One consumer doing all the work *)

(** The schedule in which [produce] and consumer 0 alternate: each record
    is parsed, received and applied before the next one is read; then the
    channel is closed, consumer 0 leaves its loop and signals, and [main]
    prints. *)
Fixpoint sequential_rounds (ts : list transaction) : list actor :=
  match ts with
  | [] => []
  | t :: ts' => [Producer; Consumer 0] ++ consume_cycle 0 t ++ sequential_rounds ts'
  end.

Definition sequential_schedule (ts : list transaction) : list actor :=
  sequential_rounds ts ++ [Producer; Consumer 0; Consumer 0; Main].

(** The map while a single consumer works: [handed] are the transactions it
    has received so far; the last of them is applied once the consumer has
    written, the ones before it are applied. *)
Definition solo_ledger (seed : gmap Z account) (handed : list transaction)
    (pc : consume_pc) (m : gmap Z account) : Prop :=
  match pc with
  | CRange | CDone | CReturned | CRelease _ => m = apply_stream handed seed
  | CAcquire t | CSwitch t =>
      exists d, handed = d ++ [t] /\ m = apply_stream d seed
  | CWithdrawRead t =>
      exists d, handed = d ++ [t] /\ m = apply_stream d seed /\ transactionType t = 1
  | CWithdrawWrite t accountData =>
      exists d, handed = d ++ [t] /\ m = apply_stream d seed /\ transactionType t = 1
                /\ accountData = map_index m (userID t)
  | CDepositRead t =>
      exists d, handed = d ++ [t] /\ m = apply_stream d seed /\ transactionType t = 2
  | CDepositWrite t accountData =>
      exists d, handed = d ++ [t] /\ m = apply_stream d seed /\ transactionType t = 2
                /\ accountData = map_index m (userID t)
  end.

Definition solo_inv {strconv : Strconv} (seed : gmap Z account)
    (csv : list (list string)) (s : state) : Prop :=
  exists rows handed pc,
    csv = rows ++ unread (st_produce s)
    /\ Forall2 (fun row t => parse_row row = Value t) rows
         (handed ++ offered (st_produce s))
    /\ st_consume s = [pc]
    /\ solo_ledger seed handed pc (st_accountList s).

(** ** More states of the examples *)

(** Where [early_report_schedule] leaves the program on [one_deposit_csv]. *)
Definition early_report_state : state :=
  default (main one_deposit_csv)
    (run (strconv := decimal_strconv) early_report_schedule (main one_deposit_csv)).

(** Consumer 0 of two has read account 1 for the deposit of
    [one_deposit_csv] and is about to write. *)
Definition deposit_write_schedule : list actor :=
  [Producer; Consumer 0; Consumer 0; Consumer 0; Consumer 0].

Definition deposit_write_state : state :=
  default (boot 2 accountList one_deposit_csv)
    (run (strconv := decimal_strconv) deposit_write_schedule
       (boot 2 accountList one_deposit_csv)).

(** A single consumer has done all of [contended_csv] and [main] has
    printed. *)
Definition solo_report_state : state :=
  default (boot 1 accountList contended_csv)
    (run (strconv := decimal_strconv)
       (sequential_schedule [deposit_30_on_1; withdraw_20_on_1])
       (boot 1 accountList contended_csv)).

(** * Properties *)

(** ** The business rules *)

Lemma map_index_Some (m : gmap Z account) (k : Z) (a : account) :
  m !! k = Some a -> map_index m k = a.
Proof. intros H. unfold map_index. by rewrite H. Qed.

Lemma withdraw_write_other (t : transaction) (a : account) (m : gmap Z account) (k : Z) :
  k <> userID t -> withdraw_write t a m !! k = m !! k.
Proof.
  intros Hk. unfold withdraw_write.
  destruct (float_ge _ _); [|done]. by rewrite lookup_insert_ne.
Qed.

Lemma deposit_write_other (t : transaction) (a : account) (m : gmap Z account) (k : Z) :
  k <> userID t -> deposit_write t a m !! k = m !! k.
Proof. intros Hk. unfold deposit_write. by rewrite lookup_insert_ne. Qed.

Lemma Some_float_neq (x y : float) : Prim2SF x <> Prim2SF y -> Some x <> Some y.
Proof.
  intros H E. apply H.
  apply (f_equal (fun o : option float => Prim2SF (default x o))) in E. exact E.
Qed.

(** C3. A WITHDRAW (type 1) on an existing account stores
    [balance - amount] when [balance >= amount] and otherwise leaves the map
    as it is; an account holding 1.00 keeps it when 50.00 is withdrawn. *)
Theorem withdraw_sufficient_or_dropped (t : transaction) (m : gmap Z account) (a : account) :
  transactionType t = 1 ->
  m !! userID t = Some a ->
  (float_ge (account_value a) (transaction_value t) = true ->
     apply_transaction t m =
     <[userID t := Account (account_id a) (account_name a)
                     (account_value a - transaction_value t)%float]> m)
  /\ (float_ge (account_value a) (transaction_value t) = false ->
        apply_transaction t m = m)
  /\ (account_value a = 1.00%float -> transaction_value t = 50.00%float ->
        apply_transaction t m = m /\ apply_transaction t m !! userID t = Some a).
Proof.
  intros Hty Ha. unfold apply_transaction, withdraw, withdraw_write.
  rewrite Hty, (map_index_Some _ _ _ Ha).
  split; [|split].
  - by intros ->.
  - by intros ->.
  - intros -> ->. by split.
Qed.

Lemma withdraw_sufficient_or_dropped_witness :
  apply_transaction (Transaction 7 1500.00%float 1 2) accountList =
    <[2 := Account 2 "Raphael" 128500.00%float]> accountList
  /\ apply_transaction (Transaction 8 50.00%float 1 5) accountList = accountList.
Proof.
  pose proof (withdraw_sufficient_or_dropped (Transaction 7 1500.00%float 1 2) accountList
                (Account 2 "Raphael" 130000.00%float) eq_refl eq_refl) as (H1 & _ & _).
  pose proof (withdraw_sufficient_or_dropped (Transaction 8 50.00%float 1 5) accountList
                (Account 5 "Fernando" 1.00%float) eq_refl eq_refl) as (_ & _ & H3).
  split.
  - exact (H1 eq_refl).
  - exact (proj1 (H3 eq_refl eq_refl)).
Defined.

(** C4. A DEPOSIT (type 2) on an existing account always stores
    [balance + amount]; nothing about the balance is tested. *)
Theorem deposit_always_applies (t : transaction) (m : gmap Z account) (a : account) :
  transactionType t = 2 ->
  m !! userID t = Some a ->
  apply_transaction t m =
  <[userID t := Account (account_id a) (account_name a)
                  (account_value a + transaction_value t)%float]> m.
Proof.
  intros Hty Ha. unfold apply_transaction, deposit, deposit_write.
  by rewrite Hty, (map_index_Some _ _ _ Ha).
Qed.

Lemma deposit_always_applies_witness :
  apply_transaction (Transaction 3 30.00%float 2 1) accountList =
  <[1 := Account 1 "Yuri" 200030.00%float]> accountList.
Proof.
  exact (deposit_always_applies (Transaction 3 30.00%float 2 1) accountList
           (Account 1 "Yuri" 200000.00%float) eq_refl eq_refl).
Defined.

(** C10. [withdraw] and [deposit] leave every entry under another key than
    [userID] as it was, and an entry they rewrite keeps its id and name. *)
Theorem withdraw_deposit_frame (t : transaction) (m : gmap Z account) :
  (forall k, k <> userID t ->
     withdraw t m !! k = m !! k /\ deposit t m !! k = m !! k)
  /\ (forall a, m !! userID t = Some a ->
        (exists a', withdraw t m !! userID t = Some a'
                    /\ account_id a' = account_id a
                    /\ account_name a' = account_name a)
        /\ (exists a', deposit t m !! userID t = Some a'
                       /\ account_id a' = account_id a
                       /\ account_name a' = account_name a)).
Proof.
  split.
  - intros k Hk. split.
    + by apply withdraw_write_other.
    + by apply deposit_write_other.
  - intros a Ha. unfold withdraw, deposit, withdraw_write, deposit_write.
    rewrite (map_index_Some _ _ _ Ha). split.
    + destruct (float_ge _ _).
      * eexists. rewrite lookup_insert_eq. by split.
      * by exists a.
    + eexists. rewrite lookup_insert_eq. by split.
Qed.

Lemma withdraw_deposit_frame_witness :
  (withdraw (Transaction 1 10.00%float 1 3) accountList !! 4 = accountList !! 4
   /\ deposit (Transaction 1 10.00%float 1 3) accountList !! 4 = accountList !! 4)
  /\ (exists a', withdraw (Transaction 1 10.00%float 1 3) accountList !! 3 = Some a'
                 /\ account_id a' = 3 /\ account_name a' = "Dalton").
Proof.
  pose proof (withdraw_deposit_frame (Transaction 1 10.00%float 1 3) accountList) as [H1 H2].
  split.
  - apply H1. simpl. lia.
  - exact (proj1 (H2 (Account 3 "Dalton" 150000.00%float) eq_refl)).
Defined.

(** ** Streams on one account *)

Lemma apply_transaction_balance (t : transaction) (m : gmap Z account) (a : account) :
  m !! userID t = Some a ->
  apply_transaction t m !! userID t =
  Some (Account (account_id a) (account_name a) (balance_step (account_value a) t)).
Proof.
  intros Ha. unfold apply_transaction, balance_step, withdraw, deposit,
    withdraw_write, deposit_write.
  rewrite (map_index_Some _ _ _ Ha). destruct a as [i n v]. simpl.
  destruct (transactionType t) as [|[p|p|]|]; try done.
  - destruct p; try done. by rewrite lookup_insert_eq.
  - destruct (float_ge _ _); [by rewrite lookup_insert_eq | done].
Qed.

(** C5, as the code has it.  For a stream whose transactions all name one
    existing account, the final balance is the seed balance with each
    deposit added and each applied withdrawal subtracted one after the
    other, in the order of application and in float64; id and name stay. *)
Theorem single_account_final_balance (ts : list transaction) (m : gmap Z account)
    (k : Z) (a : account) :
  m !! k = Some a ->
  Forall (fun t => userID t = k) ts ->
  apply_stream ts m !! k =
  Some (Account (account_id a) (account_name a) (balance_after ts (account_value a))).
Proof.
  intros Ha Hts. revert m a Ha.
  induction Hts as [|t ts Ht _ IH]; intros m a Ha.
  - by destruct a.
  - unfold apply_stream, balance_after in *. simpl. subst k.
    by rewrite (IH _ _ (apply_transaction_balance t m a Ha)).
Qed.

Lemma single_account_final_balance_witness :
  apply_stream [Transaction 1 30.00%float 2 1; Transaction 2 20.00%float 1 1]
    accountList !! 1 = Some (Account 1 "Yuri" 200010.00%float).
Proof.
  apply (single_account_final_balance
           [Transaction 1 30.00%float 2 1; Transaction 2 20.00%float 1 1]
           accountList 1 (Account 1 "Yuri" 200000.00%float)).
  - reflexivity.
  - repeat constructor.
Defined.

(** C5, as the specification states it, fails: on account 1 of the seed
    map (200000.00), deposits of 0.10 and of 0.20 leave
    200000.30000000002, while the seed plus the sum of the deposits is
    200000.3 (the float 200000.29999999999), and the exact sum of the three
    amounts is not the stored value either. *)
Lemma sum_formula_fails :
  let ts := [Transaction 1 0.1%float 2 1; Transaction 2 0.2%float 2 1] in
  Forall (fun t => userID t = 1) ts
  /\ accountList !! 1 = Some (Account 1 "Yuri" 200000.00%float)
  /\ account_value <$> apply_stream ts accountList !! 1 = Some 200000.30000000002%float
  /\ spec_final_balance 200000.00%float ts = 200000.29999999999%float
  /\ account_value <$> apply_stream ts accountList !! 1
     <> Some (spec_final_balance 200000.00%float ts)
  /\ (fun q => Qeq_bool q (spec_final_balance_exact 200000.00%float ts))
       <$> float_to_Q 200000.30000000002%float = Some false.
Proof.
  cbv zeta. split; [repeat constructor|].
  split; [reflexivity|].
  split; [vm_compute; reflexivity|].
  split; [vm_compute; reflexivity|].
  split.
  - intros H. vm_compute in H. by apply Some_float_neq in H.
  - vm_compute. reflexivity.
Qed.




(** A stream with an applied deposit and an applied withdrawal whose second
    application ends on the balances of the first. *)
Lemma net_zero_stream_reapplied :
  let ts := [Transaction 1 10.00%float 2 1; Transaction 2 10.00%float 1 1] in
  apply_transaction (Transaction 1 10.00%float 2 1) accountList <> accountList
  /\ apply_stream (ts ++ ts) accountList = apply_stream ts accountList.
Proof.
  split.
  - intros H.
    apply (f_equal (fun m : gmap Z account => account_value <$> m !! 1)) in H.
    vm_compute in H. by apply Some_float_neq in H.
  - vm_compute. reflexivity.
Qed.

(** ** The seed map *)

(** C6, evaluated on the source.  The entry under key 8 carries id 7, the
    id of the entry under key 7: the ids are not unique and a key differs
    from the id stored under it.  Every id is at least 1. *)
Theorem accountList_key_8_has_id_7 :
  accountList !! 8 = Some (Account 7 "Paula" 27000.00%float)
  /\ accountList !! 7 = Some (Account 7 "Christian" 20000.00%float)
  /\ ~ (forall k a, accountList !! k = Some a -> account_id a = k)
  /\ ~ (forall k1 k2 a1 a2, accountList !! k1 = Some a1 -> accountList !! k2 = Some a2 ->
          account_id a1 = account_id a2 -> k1 = k2)
  /\ (forall k a, accountList !! k = Some a -> 1 <= account_id a).
Proof.
  split; [reflexivity|]. split; [reflexivity|]. split; [|split].
  - intros H. by specialize (H 8 _ eq_refl).
  - intros H. by specialize (H 7 8 _ _ eq_refl eq_refl eq_refl).
  - intros k a H. apply elem_of_map_to_list in H.
    vm_compute in H.
    repeat (apply elem_of_cons in H as [H|H]; [injection H as -> ->; simpl; lia|]).
    by apply elem_of_nil in H.
Qed.

(** ** Schedules and invariants *)

Lemma count_pc_nonneg (P : consume_pc -> bool) (cs : list consume_pc) :
  0 <= count_pc P cs.
Proof. induction cs as [|pc cs IH]; simpl; [lia|]. destruct (P pc); lia. Qed.

Lemma count_pc_insert (P : consume_pc -> bool) (cs : list consume_pc) (i : nat)
    (pc pc' : consume_pc) :
  cs !! i = Some pc ->
  count_pc P (<[i := pc']> cs)
  = count_pc P cs - (if P pc then 1 else 0) + (if P pc' then 1 else 0).
Proof.
  revert i. induction cs as [|c cs IH]; intros [|i] H; simpl in *; try done.
  - injection H as ->. lia.
  - rewrite (IH _ H). lia.
Qed.

Lemma count_pc_one (P : consume_pc -> bool) (cs : list consume_pc) (i : nat)
    (pc : consume_pc) :
  cs !! i = Some pc -> P pc = true -> 1 <= count_pc P cs.
Proof.
  intros Hi Hp. revert i Hi.
  induction cs as [|c cs IH]; intros [|i] Hi; simpl in *; try done.
  - injection Hi as ->. rewrite Hp. pose proof (count_pc_nonneg P cs). lia.
  - specialize (IH i Hi). destruct (P c); lia.
Qed.

Lemma count_pc_two (P : consume_pc -> bool) (cs : list consume_pc) (i1 i2 : nat)
    (p1 p2 : consume_pc) :
  i1 <> i2 -> cs !! i1 = Some p1 -> cs !! i2 = Some p2 ->
  P p1 = true -> P p2 = true -> 2 <= count_pc P cs.
Proof.
  intros Hne H1 H2 Hp1 Hp2. revert i1 i2 Hne H1 H2.
  induction cs as [|c cs IH]; intros [|i1] [|i2] Hne H1 H2; simpl in *; try done.
  - injection H1 as ->. rewrite Hp1.
    pose proof (count_pc_one P cs i2 p2 H2 Hp2). lia.
  - injection H2 as ->. rewrite Hp2.
    pose proof (count_pc_one P cs i1 p1 H1 Hp1). lia.
  - assert (i1 <> i2) as Hne' by congruence.
    specialize (IH i1 i2 Hne' H1 H2). destruct (P c); lia.
Qed.

Lemma count_pc_below_length (P : consume_pc -> bool) (cs : list consume_pc) :
  count_pc P cs < Z.of_nat (length cs) ->
  exists i pc, cs !! i = Some pc /\ P pc = false.
Proof.
  induction cs as [|c cs IH]; simpl; [lia|]. intros H.
  destruct (P c) eqn:E.
  - destruct IH as (i & pc & Hi & Hpc); [lia|]. by exists (S i), pc.
  - by exists 0%nat, c.
Qed.

Lemma count_pc_positive (P : consume_pc -> bool) (cs : list consume_pc) :
  1 <= count_pc P cs -> exists i pc, cs !! i = Some pc /\ P pc = true.
Proof.
  induction cs as [|c cs IH]; simpl; [lia|]. intros H.
  destruct (P c) eqn:E.
  - by exists 0%nat, c.
  - destruct IH as (i & pc & Hi & Hpc); [lia|]. by exists (S i), pc.
Qed.

Lemma count_pc_replicate (P : consume_pc -> bool) (n : nat) (pc : consume_pc) :
  P pc = false -> count_pc P (replicate n pc) = 0.
Proof. intros H. induction n as [|n IH]; simpl; [done|]. rewrite H. lia. Qed.

Lemma holds_at_None (idx : Z) (pc : consume_pc) :
  holds pc = None -> holds_at idx pc = false.
Proof. unfold holds_at. by intros ->. Qed.

Lemma holds_at_Some (idx : Z) (pc : consume_pc) (t : transaction) :
  holds pc = Some t -> holds_at idx pc = bool_decide (permit_index t = idx).
Proof. unfold holds_at. by intros ->. Qed.

Lemma holds_at_holds (idx : Z) (pc pc' : consume_pc) :
  holds pc' = holds pc -> holds_at idx pc' = holds_at idx pc.
Proof. unfold holds_at. by intros ->. Qed.

Lemma sem_index_Value (sems : list Weighted) (idx : Z) (w : Weighted) :
  sem_index sems idx = Value w ->
  0 <= idx /\ sems !! Z.to_nat idx = Some w.
Proof.
  unfold sem_index. destruct (idx <? 0) eqn:E; [done|].
  destruct (sems !! Z.to_nat idx) eqn:E'; [|done].
  intros [= ->]. split; [lia | done].
Qed.

Lemma permits_inv_same (sems : list Weighted) (cs : list consume_pc) (i : nat)
    (pc pc' : consume_pc) :
  permits_inv sems cs -> cs !! i = Some pc -> holds pc' = holds pc ->
  permits_inv sems (<[i := pc']> cs).
Proof.
  intros [I1 I2] Hi Hh. split.
  - intros j w Hj. destruct (I1 j w Hj) as (Hs & Hc & Hcur).
    split; [done|]. split; [done|].
    unfold holders in *. rewrite (count_pc_insert _ _ _ _ _ Hi).
    rewrite (holds_at_holds _ _ _ Hh). lia.
  - intros i' pc'' t Hi' Ht. destruct (decide (i = i')) as [<-|Hne].
    + rewrite list_lookup_insert_eq in Hi' by (by eapply lookup_lt_Some).
      injection Hi' as <-. rewrite Hh in Ht. eauto.
    + rewrite list_lookup_insert_ne in Hi' by done. eauto.
Qed.

Lemma permits_inv_acquire (sems : list Weighted) (cs : list consume_pc) (i : nat)
    (pc pc' : consume_pc) (t : transaction) (w w' : Weighted) :
  permits_inv sems cs -> cs !! i = Some pc ->
  holds pc = None -> holds pc' = Some t ->
  sem_index sems (permit_index t) = Value w -> Acquire w = Some w' ->
  permits_inv (<[Z.to_nat (permit_index t) := w']> sems) (<[i := pc']> cs).
Proof.
  intros [I1 I2] Hi Hpc Hpc' Hw Hacq.
  apply sem_index_Value in Hw as [Hidx Hw].
  pose proof (lookup_lt_Some _ _ _ Hw) as Hlt.
  unfold Acquire in Hacq. destruct (1 <=? _) eqn:Hfree; [|done].
  injection Hacq as <-. apply Z.leb_le in Hfree.
  split.
  - intros j w0 Hj. unfold holders. rewrite (count_pc_insert _ _ _ _ _ Hi).
    rewrite (holds_at_None _ _ Hpc), (holds_at_Some _ _ _ Hpc').
    destruct (decide (Z.to_nat (permit_index t) = j)) as [<-|Hne].
    + rewrite list_lookup_insert_eq in Hj by done. injection Hj as <-. simpl.
      destruct (I1 _ _ Hw) as (Hs & Hc & Hh). unfold holders in Hh.
      rewrite Z2Nat.id in * by done. rewrite bool_decide_eq_true_2 by done. lia.
    + rewrite list_lookup_insert_ne in Hj by done.
      destruct (I1 _ _ Hj) as (Hs & Hc & Hh). unfold holders in Hh.
      rewrite bool_decide_eq_false_2 by lia. repeat split; lia.
  - intros i' pc'' t' Hi' Ht'. rewrite length_insert.
    destruct (decide (i = i')) as [<-|Hne].
    + rewrite list_lookup_insert_eq in Hi' by (by eapply lookup_lt_Some).
      injection Hi' as <-. rewrite Hpc' in Ht'. injection Ht' as <-. done.
    + rewrite list_lookup_insert_ne in Hi' by done. eauto.
Qed.

Lemma permits_inv_release (sems : list Weighted) (cs : list consume_pc) (i : nat)
    (pc pc' : consume_pc) (t : transaction) (w w' : Weighted) :
  permits_inv sems cs -> cs !! i = Some pc ->
  holds pc = Some t -> holds pc' = None ->
  sem_index sems (permit_index t) = Value w -> Release w = Value w' ->
  permits_inv (<[Z.to_nat (permit_index t) := w']> sems) (<[i := pc']> cs).
Proof.
  intros [I1 I2] Hi Hpc Hpc' Hw Hrel.
  apply sem_index_Value in Hw as [Hidx Hw].
  pose proof (lookup_lt_Some _ _ _ Hw) as Hlt.
  unfold Release in Hrel. simpl in Hrel. destruct (_ <? 0) eqn:Hneg; [done|].
  injection Hrel as <-. apply Z.ltb_ge in Hneg.
  split.
  - intros j w0 Hj. unfold holders. rewrite (count_pc_insert _ _ _ _ _ Hi).
    rewrite (holds_at_Some _ _ _ Hpc), (holds_at_None _ _ Hpc').
    destruct (decide (Z.to_nat (permit_index t) = j)) as [<-|Hne].
    + rewrite list_lookup_insert_eq in Hj by done. injection Hj as <-. simpl.
      destruct (I1 _ _ Hw) as (Hs & Hc & Hh). unfold holders in Hh.
      rewrite Z2Nat.id in * by done. rewrite bool_decide_eq_true_2 by done. lia.
    + rewrite list_lookup_insert_ne in Hj by done.
      destruct (I1 _ _ Hj) as (Hs & Hc & Hh). unfold holders in Hh.
      rewrite bool_decide_eq_false_2 by lia. repeat split; lia.
  - intros i' pc'' t' Hi' Ht'. rewrite length_insert.
    destruct (decide (i = i')) as [<-|Hne].
    + rewrite list_lookup_insert_eq in Hi' by (by eapply lookup_lt_Some).
      injection Hi' as <-. by rewrite Hpc' in Ht'.
    + rewrite list_lookup_insert_ne in Hi' by done. eauto.
Qed.

(** While a consumer holds a permit, the counter of its semaphore is 1. *)
Lemma permits_inv_held (sems : list Weighted) (cs : list consume_pc) (i : nat)
    (pc : consume_pc) (t : transaction) :
  permits_inv sems cs -> cs !! i = Some pc -> holds pc = Some t ->
  exists w, sem_index sems (permit_index t) = Value w /\ sem_cur w = 1.
Proof.
  intros [I1 I2] Hi Ht. destruct (I2 _ _ _ Hi Ht) as [Hidx Hlt].
  destruct (lookup_lt_is_Some_2 _ _ Hlt) as [w Hw]. exists w.
  unfold sem_index. rewrite (proj2 (Z.ltb_ge _ _) Hidx), Hw. split; [done|].
  destruct (I1 _ _ Hw) as (_ & Hc & Hh). rewrite Z2Nat.id in Hh by done.
  assert (holds_at (permit_index t) pc = true) as Hpc
    by (rewrite (holds_at_Some _ _ _ Ht); by apply bool_decide_eq_true_2).
  pose proof (count_pc_one _ _ _ _ Hi Hpc). unfold holders in Hh. lia.
Qed.

Lemma permits_inv_holders (sems : list Weighted) (cs : list consume_pc) (idx : Z) :
  permits_inv sems cs -> holders idx cs <= 1.
Proof.
  intros [I1 I2]. destruct (decide (1 <= holders idx cs)) as [Hpos|]; [|lia].
  destruct (count_pc_positive _ _ Hpos) as (i & pc & Hi & Hpc).
  unfold holds_at in Hpc. destruct (holds pc) as [t|] eqn:Ht; [|done].
  apply bool_decide_eq_true_1 in Hpc. subst idx.
  destruct (I2 _ _ _ Hi Ht) as [Hidx Hlt].
  destruct (lookup_lt_is_Some_2 _ _ Hlt) as [w Hw].
  destruct (I1 _ _ Hw) as (_ & Hc & Hh).
  rewrite Z2Nat.id in Hh by done. lia.
Qed.

(** Two consumers that hold a permit work on different accounts. *)
Lemma permits_inv_exclusive (sems : list Weighted) (cs : list consume_pc)
    (i1 i2 : nat) (p1 p2 : consume_pc) (t1 t2 : transaction) :
  permits_inv sems cs -> i1 <> i2 ->
  cs !! i1 = Some p1 -> cs !! i2 = Some p2 ->
  holds p1 = Some t1 -> holds p2 = Some t2 ->
  userID t1 <> userID t2.
Proof.
  intros Hinv Hne H1 H2 Ht1 Ht2 Heq.
  pose proof (count_pc_two (holds_at (permit_index t1)) _ _ _ _ _ Hne H1 H2) as Htwo.
  assert (permit_index t2 = permit_index t1) as Hidx
    by (unfold permit_index; by rewrite Heq).
  rewrite (holds_at_Some _ _ _ Ht1), (holds_at_Some _ _ _ Ht2) in Htwo.
  rewrite !bool_decide_eq_true_2 in Htwo by done.
  specialize (Htwo eq_refl eq_refl).
  pose proof (permits_inv_holders _ _ (permit_index t1) Hinv) as Hle.
  unfold holders in Hle. lia.
Qed.

Section Executions.
Context {strconv : Strconv}.

Lemma reachable_refl (s : state) : reachable s s.
Proof. by exists []. Qed.

Lemma run_app (sched1 sched2 : list actor) (s : state) :
  run (sched1 ++ sched2) s =
  match run sched1 s with
  | Some s' => run sched2 s'
  | None => None
  end.
Proof.
  revert s. induction sched1 as [|a sched1 IH]; intros s; simpl; [done|].
  destruct (step a s); [apply IH | done].
Qed.

Lemma reachable_trans (s0 s1 s2 : state) :
  reachable s0 s1 -> reachable s1 s2 -> reachable s0 s2.
Proof.
  intros [sched1 H1] [sched2 H2]. exists (sched1 ++ sched2).
  by rewrite run_app, H1.
Qed.

(** Induction along a schedule. *)
Lemma reachable_invariant (P : state -> Prop) (s0 : state) :
  P s0 ->
  (forall a s s', P s -> step a s = Some s' -> P s') ->
  forall s, reachable s0 s -> P s.
Proof.
  intros H0 Hstep s [sched Hrun]. revert s0 H0 Hrun.
  induction sched as [|a sched IH]; simpl; intros s0 H0 Hrun.
  - by injection Hrun as <-.
  - destruct (step a s0) as [s1|] eqn:E; [|done]. eauto.
Qed.

(** Once the process has ended nothing moves. *)
Lemma step_ended (a : actor) (s : state) :
  st_phase s <> Running -> step a s = None.
Proof. unfold step. by destruct (st_phase s). Qed.

Lemma step_running (a : actor) (s s' : state) :
  step a s = Some s' -> st_phase s = Running.
Proof. unfold step. by destruct (st_phase s). Qed.

Lemma step_permits_inv (a : actor) (s s' : state) :
  permits_inv (semaphores s) (st_consume s) ->
  step a s = Some s' ->
  permits_inv (semaphores s') (st_consume s').
Proof.
  intros Hinv Hstep. pose proof (step_running _ _ _ Hstep) as Hrun.
  unfold step in Hstep. rewrite Hrun in Hstep. destruct a as [|i|].
  - unfold step_produce, finish in Hstep.
    repeat case_match; by simplify_eq.
  - unfold step_consume, finish, bind in Hstep.
    destruct (st_consume s !! i) as [pc|] eqn:Hi; [|done].
    destruct pc; repeat case_match; simplify_eq; simpl; try done;
      try (by eapply permits_inv_same);
      try (by eapply permits_inv_acquire);
      try (by eapply permits_inv_release).
  - unfold step_main in Hstep. repeat case_match; by simplify_eq.
Qed.

Lemma boot_permits_inv (n : nat) (seed : gmap Z account) (csv : list (list string)) :
  permits_inv (semaphores (boot n seed csv)) (st_consume (boot n seed csv)).
Proof.
  simpl. split.
  - intros j w Hj. apply lookup_replicate in Hj as [-> _]. simpl.
    unfold holders. rewrite count_pc_replicate by done. lia.
  - intros i pc t Hi Ht. apply lookup_replicate in Hi as [-> _]. done.
Qed.

Lemma reachable_permits_inv (n : nat) (seed : gmap Z account)
    (csv : list (list string)) (s : state) :
  reachable (boot n seed csv) s ->
  permits_inv (semaphores s) (st_consume s).
Proof.
  apply (reachable_invariant (fun s => permits_inv (semaphores s) (st_consume s))).
  - apply boot_permits_inv.
  - intros a s1 s2. apply step_permits_inv.
Qed.

(** The slice of semaphores and the pool keep their lengths. *)
Lemma step_lengths (a : actor) (s s' : state) :
  step a s = Some s' ->
  length (semaphores s') = length (semaphores s)
  /\ length (st_consume s') = length (st_consume s).
Proof.
  intros Hstep. pose proof (step_running _ _ _ Hstep) as Hrun.
  unfold step in Hstep. rewrite Hrun in Hstep. destruct a as [|i|].
  - unfold step_produce, finish in Hstep. repeat case_match; by simplify_eq.
  - unfold step_consume, finish, bind in Hstep.
    repeat case_match; simplify_eq; simpl; by rewrite ?length_insert.
  - unfold step_main in Hstep. repeat case_match; by simplify_eq.
Qed.

Lemma reachable_lengths (n : nat) (seed : gmap Z account)
    (csv : list (list string)) (s : state) :
  reachable (boot n seed csv) s ->
  length (semaphores s) = size seed /\ length (st_consume s) = n.
Proof.
  apply (reachable_invariant
           (fun s => length (semaphores s) = size seed /\ length (st_consume s) = n)).
  - simpl. by rewrite !length_replicate.
  - intros a s1 s2 [H1 H2] Hstep.
    destruct (step_lengths _ _ _ Hstep) as [-> ->]. done.
Qed.

(** C2. In every state the program reaches, whatever the number of
    consumers, the input and the schedule: the counter of each semaphore
    is the number of consumers that hold it and is at most 1, and two
    different consumers that are between [Acquire] and [Release] work on
    different accounts. *)
Theorem mutual_exclusion_per_account (n : nat) (seed : gmap Z account)
    (csv : list (list string)) (s : state) :
  reachable (boot n seed csv) s ->
  (forall (j : nat) w, semaphores s !! j = Some w ->
     sem_cur w = holders (Z.of_nat j) (st_consume s) /\ 0 <= sem_cur w <= 1)
  /\ (forall idx, holders idx (st_consume s) <= 1)
  /\ (forall i1 i2 p1 p2 t1 t2,
        i1 <> i2 ->
        st_consume s !! i1 = Some p1 -> st_consume s !! i2 = Some p2 ->
        holds p1 = Some t1 -> holds p2 = Some t2 ->
        userID t1 <> userID t2).
Proof.
  intros Hreach. pose proof (reachable_permits_inv _ _ _ _ Hreach) as Hinv.
  split; [|split].
  - intros j w Hj. destruct Hinv as [I1 _]. by destruct (I1 _ _ Hj) as (_ & Hc & Hh).
  - intros idx. by eapply permits_inv_holders.
  - intros i1 i2 p1 p2 t1 t2. by apply (permits_inv_exclusive _ _ _ _ _ _ _ _ Hinv).
Qed.

End Executions.

Lemma mutual_exclusion_per_account_witness :
  reachable (strconv := decimal_strconv) (boot 2 accountList contended_csv) contended_state
  /\ holders 0 (st_consume contended_state) <= 1
  /\ run (strconv := decimal_strconv) [Consumer 1] contended_state = None.
Proof.
  assert (reachable (strconv := decimal_strconv)
            (boot 2 accountList contended_csv) contended_state) as Hreach
    by (exists contended_schedule; vm_compute; reflexivity).
  split; [exact Hreach|]. split.
  - exact (proj1 (proj2 (mutual_exclusion_per_account (strconv := decimal_strconv)
                           2 accountList contended_csv contended_state Hreach)) 0).
  - vm_compute. reflexivity.
Defined.

Section Failures.
Context {strconv : Strconv}.

Lemma parse_row_malformed (row : list string) :
  malformed row -> parse_row row = LogFatal.
Proof.
  intros (k & f & Hk & Hf & Hbad). unfold parse_row, row_index, or_fatal, bind.
  destruct row as [|f0 [|f1 [|f2 [|f3 row]]]];
    destruct k as [|[|[|[|k]]]]; simpl in Hf; try done; try lia;
    injection Hf as ->; unfold field_parses in Hbad; simpl;
    repeat (case_match; try done); exfalso; apply Hbad; eauto.
Qed.

(** C8. When [produce] is about to read a record one of whose four fields
    does not parse, its next step ends the process in [log.Fatal]; after
    that no goroutine moves, and in no state reached from there on has
    [produce] got past that record: neither it nor a later record is ever
    offered on the channel. *)
Theorem malformed_record_is_fatal (s : state) (row : list string)
    (rows : list (list string)) :
  st_phase s = Running ->
  st_produce s = PRead (row :: rows) ->
  malformed row ->
  step Producer s = Some (set_phase Fatal s)
  /\ (forall a, step a (set_phase Fatal s) = None)
  /\ (forall s', reachable s s' -> st_produce s' = PRead (row :: rows)).
Proof.
  intros Hrun Hpc Hbad. pose proof (parse_row_malformed _ Hbad) as Hparse.
  split; [|split].
  - unfold step, step_produce. by rewrite Hrun, Hpc, Hparse.
  - intros a. by apply step_ended.
  - apply (reachable_invariant (fun s' => st_produce s' = PRead (row :: rows))); [done|].
    intros a s1 s2 H1 Hstep. pose proof (step_running _ _ _ Hstep) as Hrun1.
    unfold step in Hstep. rewrite Hrun1 in Hstep. destruct a as [|i|].
    + unfold step_produce, finish in Hstep. rewrite H1, Hparse in Hstep. by simplify_eq.
    + unfold step_consume, finish, bind in Hstep. rewrite H1 in Hstep.
      repeat case_match; by simplify_eq.
    + unfold step_main in Hstep. repeat case_match; by simplify_eq.
Qed.

Lemma permit_index_unknown (t : transaction) (len : nat) :
  is_int (userID t) ->
  Z.of_nat len < 2 ^ 63 - 1 ->
  userID t < 1 \/ Z.of_nat len < userID t ->
  permit_index t < 0 \/ Z.of_nat len <= permit_index t.
Proof.
  unfold is_int, permit_index, wrap_int. intros Hint Hlen Hout.
  destruct (decide (userID t = - 2 ^ 63)) as [->|Hmin].
  - right. change ((- 2 ^ 63 - 1 + 2 ^ 63) mod 2 ^ 64 - 2 ^ 63) with (2 ^ 63 - 1). lia.
  - replace ((userID t - 1 + 2 ^ 63) mod 2 ^ 64) with (userID t - 1 + 2 ^ 63)
      by (symmetry; apply Z.mod_small; lia).
    lia.
Qed.

Lemma sem_index_out_of_range (sems : list Weighted) (idx : Z) :
  idx < 0 \/ Z.of_nat (length sems) <= idx ->
  sem_index sems idx = RuntimePanic.
Proof.
  intros H. unfold sem_index. destruct (idx <? 0) eqn:E; [done|].
  apply Z.ltb_ge in E. rewrite lookup_ge_None_2; [done|lia].
Qed.

(** C7. A consumer that has received a transaction whose [userID] is
    below 1 or above the number of seed accounts panics in the index
    expression of line 141: the process ends, the map is as it was, and
    nothing moves afterwards. *)
Theorem unknown_account_panics (s : state) (i : nat) (t : transaction) :
  st_phase s = Running ->
  length (semaphores s) = size accountList ->
  st_consume s !! i = Some (CAcquire t) ->
  is_int (userID t) ->
  userID t < 1 \/ Z.of_nat (size accountList) < userID t ->
  step (Consumer i) s = Some (set_phase Panicked s)
  /\ st_accountList (set_phase Panicked s) = st_accountList s
  /\ (forall a, step a (set_phase Panicked s) = None).
Proof.
  intros Hrun Hlen Hi Hint Hout. split; [|split; [done|]].
  - unfold step, step_consume. rewrite Hrun, Hi.
    rewrite sem_index_out_of_range; [done|]. rewrite Hlen.
    apply permit_index_unknown; [done| |done].
    change (size accountList) with 8%nat. lia.
  - intros a. by apply step_ended.
Qed.

(** The states [main] reaches meet the second premise. *)
Lemma main_semaphores_length (n : nat) (csv : list (list string)) (s : state) :
  reachable (boot n accountList csv) s ->
  length (semaphores s) = size accountList.
Proof. intros H. by destruct (reachable_lengths _ _ _ _ H). Qed.

End Failures.

Lemma malformed_record_is_fatal_witness :
  malformed (strconv := decimal_strconv) malformed_amount_row
  /\ step (strconv := decimal_strconv) Producer malformed_amount_state
     = Some (set_phase Fatal malformed_amount_state).
Proof.
  assert (malformed (strconv := decimal_strconv) malformed_amount_row) as Hbad.
  { exists 1%nat, "abc". split; [lia|]. split; [reflexivity|].
    intros [x Hx]. vm_compute in Hx. discriminate. }
  split; [exact Hbad|].
  exact (proj1 (malformed_record_is_fatal (strconv := decimal_strconv)
                  malformed_amount_state malformed_amount_row [["2"; "20"; "1"; "1"]]
                  eq_refl eq_refl Hbad)).
Defined.

Lemma unknown_account_panics_witness :
  step (strconv := decimal_strconv) (Consumer 0) unknown_account_state
  = Some (set_phase Panicked unknown_account_state)
  /\ st_accountList (set_phase Panicked unknown_account_state) = accountList.
Proof.
  destruct (unknown_account_panics (strconv := decimal_strconv)
              unknown_account_state 0 deposit_30_on_9) as (H1 & H2 & _).
  - reflexivity.
  - reflexivity.
  - reflexivity.
  - unfold is_int. simpl. lia.
  - right. change (size accountList) with 8%nat. simpl. lia.
  - split; [exact H1 | exact H2].
Defined.

Section Completion.
Context {strconv : Strconv}.

Lemma step_done_inv (a : actor) (s s' : state) :
  done_inv s -> step a s = Some s' -> done_inv s'.
Proof.
  unfold done_inv. intros Hinv Hstep. pose proof (step_running _ _ _ Hstep) as Hrun.
  unfold step in Hstep. rewrite Hrun in Hstep. destruct a as [|i|].
  - unfold step_produce, finish in Hstep.
    repeat case_match; simplify_eq; simpl in *; congruence.
  - unfold step_consume, finish, bind in Hstep.
    destruct (st_consume s !! i) as [pc|] eqn:Hi; [|done].
    destruct pc; repeat case_match; simplify_eq; simpl in *;
      rewrite ?(count_pc_insert _ _ _ _ _ Hi); simpl; try congruence; try lia.
  - unfold step_main in Hstep.
    repeat case_match; simplify_eq; simpl in *; congruence.
Qed.

Lemma at_most_one_consumer_returns (n : nat) (seed : gmap Z account)
    (csv : list (list string)) (s : state) :
  reachable (boot n seed csv) s ->
  count_pc is_returned (st_consume s) <= 1.
Proof.
  intros H. assert (done_inv s) as Hd.
  { revert s H. apply reachable_invariant.
    - unfold done_inv. simpl. by apply count_pc_replicate.
    - apply step_done_inv. }
  unfold done_inv in Hd. destruct (st_main s); lia.
Qed.

(** X17. With two consumers or more, whenever [main] has printed the final
    map some consumer has not returned. *)
Lemma report_leaves_consumers_behind (n : nat) (seed : gmap Z account)
    (csv : list (list string)) (s : state) (final : gmap Z account) :
  (2 <= n)%nat ->
  reachable (boot n seed csv) s ->
  st_phase s = Finished final ->
  exists i pc, st_consume s !! i = Some pc /\ pc <> CReturned.
Proof.
  intros Hn Hreach _.
  pose proof (at_most_one_consumer_returns _ _ _ _ Hreach) as Hle.
  destruct (reachable_lengths _ _ _ _ Hreach) as [_ Hlen].
  destruct (count_pc_below_length is_returned (st_consume s)) as (i & pc & Hi & Hpc);
    [lia|].
  exists i, pc. split; [done|]. by intros ->.
Qed.

End Completion.

(** C1, evaluated on the source.  With the 50 consumers of the program and
    a file holding one deposit of 30 on account 1, the schedule
    [early_report_schedule] ends the process with [main] having printed the
    seed map: consumer 1 is the only consumer that has returned, consumer 0
    holds the permit of account 1 and is inside [deposit] with nothing
    written yet, and the other consumers are still in their loop. *)
Theorem main_reports_after_first_done :
  exists s,
    run (strconv := decimal_strconv) early_report_schedule (main one_deposit_csv) = Some s
    /\ st_phase s = Finished accountList
    /\ st_consume s !! 0%nat = Some (CDepositRead deposit_30_on_1)
    /\ st_consume s !! 1%nat = Some CReturned
    /\ st_consume s !! 2%nat = Some CRange
    /\ count_pc is_returned (st_consume s) = 1
    /\ holders 0 (st_consume s) = 1
    /\ Z.of_nat (length (st_consume s)) = 50.
Proof.
  eexists. split; [vm_compute; reflexivity|].
  repeat split; vm_compute; reflexivity.
Qed.

Section Uninterrupted.
Context {strconv : Strconv}.

(** A consumer that finds its permit free and is not interleaved with
    anybody goes from [Acquire] to [Release] in [consume_cycle] steps and
    leaves in the map what [apply_transaction] computes; the semaphores
    are as before. *)
Lemma consume_cycle_applies (s : state) (i : nat) (t : transaction) (w : Weighted) :
  st_phase s = Running ->
  st_consume s !! i = Some (CAcquire t) ->
  sem_index (semaphores s) (permit_index t) = Value w ->
  sem_size w = 1 -> sem_cur w = 0 ->
  exists s',
    run (consume_cycle i t) s = Some s'
    /\ st_accountList s' = apply_transaction t (st_accountList s)
    /\ st_consume s' = <[i := CRange]> (st_consume s)
    /\ semaphores s' = semaphores s
    /\ st_phase s' = Running
    /\ st_produce s' = st_produce s
    /\ st_main s' = st_main s.
Proof.
  intros Hrun Hi Hw Hsize Hcur.
  pose proof (lookup_lt_Some _ _ _ Hi) as Hlt.
  destruct (sem_index_Value _ _ _ Hw) as [Hidx Hj].
  pose proof (lookup_lt_Some _ _ _ Hj) as Hjlt.
  destruct s as [ph pr cs mn sems m]. simpl in *. subst ph.
  destruct w as [sz cu]. simpl in *. subst sz cu.
  assert (forall pc, <[i := pc]> cs !! i = Some pc) as Hcs
    by (intros pc; by apply list_lookup_insert_eq).
  assert (<[Z.to_nat (permit_index t) := {| sem_size := 1; sem_cur := 1 |}]> sems
            !! Z.to_nat (permit_index t) = Some {| sem_size := 1; sem_cur := 1 |}) as Hs1
    by (by apply list_lookup_insert_eq).
  assert (sem_index
            (<[Z.to_nat (permit_index t) := {| sem_size := 1; sem_cur := 1 |}]> sems)
            (permit_index t) = Value {| sem_size := 1; sem_cur := 1 |}) as Hw1.
  { unfold sem_index. by rewrite (proj2 (Z.ltb_ge _ _) Hidx), Hs1. }
  unfold consume_cycle, apply_transaction.
  destruct (transactionType t) as [|[p|[p|p|]|]|] eqn:Hty;
    eexists; simpl; unfold step, step_consume, finish, bind; simpl;
    rewrite ?Hi, ?Hw; simpl; change (0 + 1) with 1;
    rewrite ?Hcs, ?Hty; simpl;
    rewrite ?list_insert_insert_eq, ?Hcs, ?Hw1; simpl;
    rewrite ?list_insert_insert_eq, ?Hcs, ?Hw1; simpl;
    rewrite ?list_insert_insert_eq, ?Hcs, ?Hw1; simpl;
    change (1 - 1) with 0;
    (split; [reflexivity|]); simpl;
    rewrite ?list_insert_insert_eq, ?(list_insert_id _ _ _ Hj); done.
Qed.

End Uninterrupted.

Section Atomicity.
Context {strconv : Strconv}.

Lemma cycle_ok_frame (m m' : gmap Z account) (pc : consume_pc) :
  cycle_ok m pc ->
  (forall t, holds pc = Some t -> m' !! userID t = m !! userID t) ->
  cycle_ok m' pc.
Proof.
  unfold cycle_ok, map_index. intros H Hm.
  destruct pc; try done; destruct H as [H ->]; (split; [done|]);
    by rewrite (Hm _ eq_refl).
Qed.

Lemma step_cycle_inv (a : actor) (s s' : state) :
  permits_inv (semaphores s) (st_consume s) ->
  cycle_inv s -> step a s = Some s' -> cycle_inv s'.
Proof.
  unfold cycle_inv. intros Hperm Hinv Hstep.
  pose proof (step_running _ _ _ Hstep) as Hrun.
  unfold step in Hstep. rewrite Hrun in Hstep. destruct a as [|j|].
  - unfold step_produce, finish in Hstep. repeat case_match; by simplify_eq.
  - unfold step_consume, finish, bind in Hstep.
    destruct (st_consume s !! j) as [pcj|] eqn:Hj; [|done].
    pose proof (lookup_lt_Some _ _ _ Hj) as Hlt.
    pose proof (Hinv _ _ Hj) as Hokj.
    assert (forall pc',
              cycle_ok (st_accountList s) pc' ->
              forall i pc, <[j := pc']> (st_consume s) !! i = Some pc ->
                           cycle_ok (st_accountList s) pc)
      as Hsame.
    { intros pc' Hpc' i pc Hi. destruct (decide (i = j)) as [->|Hne].
      - rewrite list_lookup_insert_eq in Hi by done. by injection Hi as <-.
      - rewrite list_lookup_insert_ne in Hi by done. by eapply Hinv. }
    assert (forall pc' m' tj,
              holds pcj = Some tj ->
              cycle_ok m' pc' ->
              (forall k, k <> userID tj -> m' !! k = st_accountList s !! k) ->
              forall i pc, <[j := pc']> (st_consume s) !! i = Some pc -> cycle_ok m' pc)
      as Hwrite.
    { intros pc' m' tj Htj Hpc' Hframe i pc Hi. destruct (decide (i = j)) as [->|Hne].
      - rewrite list_lookup_insert_eq in Hi by done. by injection Hi as <-.
      - rewrite list_lookup_insert_ne in Hi by done.
        apply (cycle_ok_frame (st_accountList s)); [by eapply Hinv|].
        intros t Ht. apply Hframe.
        by eapply (permits_inv_exclusive _ _ i j). }
    destruct pcj; simpl in Hokj; repeat case_match; simplify_eq; simpl;
      try done; try (apply Hsame; simpl; by eauto).
    + eapply Hwrite; [done..|]. intros k Hk. by apply withdraw_write_other.
    + eapply Hwrite; [done..|]. intros k Hk. by apply deposit_write_other.
  - unfold step_main in Hstep. repeat case_match; by simplify_eq.
Qed.

Lemma reachable_cycle_inv (n : nat) (seed : gmap Z account)
    (csv : list (list string)) (s : state) :
  reachable (boot n seed csv) s -> cycle_inv s.
Proof.
  intros H.
  assert (permits_inv (semaphores s) (st_consume s) /\ cycle_inv s) as [_ Hc]; [|done].
  revert s H. apply reachable_invariant.
  - split; [apply boot_permits_inv|].
    intros i pc Hi. simpl in Hi. by apply lookup_replicate in Hi as [-> _].
  - intros a s1 s2 [Hp Hc] Hstep. split.
    + by eapply step_permits_inv.
    + by eapply step_cycle_inv.
Qed.

(** X16. The read-modify-write cycle of a transaction is atomic.  In every state
    the program reaches, whatever the other consumers do between the read
    and the write of a consumer, the snapshot it holds is still the entry
    of its account, and its write leaves in the map what
    [apply_transaction] computes from the map as it is at that moment. *)
Lemma write_applies_transaction (n : nat) (seed : gmap Z account)
    (csv : list (list string)) (s s' : state) (i : nat) (pc : consume_pc)
    (t : transaction) (accountData : account) :
  reachable (boot n seed csv) s ->
  st_consume s !! i = Some pc ->
  pc = CWithdrawWrite t accountData \/ pc = CDepositWrite t accountData ->
  step (Consumer i) s = Some s' ->
  accountData = map_index (st_accountList s) (userID t)
  /\ st_accountList s' = apply_transaction t (st_accountList s).
Proof.
  intros Hreach Hi Hpc Hstep. pose proof (reachable_cycle_inv _ _ _ _ Hreach _ _ Hi) as Hok.
  pose proof (step_running _ _ _ Hstep) as Hrun.
  unfold step, step_consume in Hstep. rewrite Hrun, Hi in Hstep.
  unfold apply_transaction, withdraw, deposit.
  destruct Hpc as [-> | ->]; destruct Hok as [-> <-]; by simplify_eq.
Qed.

End Atomicity.

(** * Further properties of the code *)

(** ** The business rules on arbitrary maps *)

Lemma apply_transaction_lookup_ne (t : transaction) (m : gmap Z account) (k : Z) :
  k <> userID t -> apply_transaction t m !! k = m !! k.
Proof.
  intros Hk. unfold apply_transaction, withdraw, deposit.
  repeat case_match; try done.
  - by apply deposit_write_other.
  - by apply withdraw_write_other.
Qed.

Lemma apply_transaction_lookup_eq (t : transaction) (m : gmap Z account) :
  apply_transaction t m !! userID t = entry_after t (m !! userID t).
Proof.
  unfold apply_transaction, entry_after, withdraw, deposit, withdraw_write,
    deposit_write, map_index.
  repeat case_match; simplify_eq; try done; by rewrite lookup_insert_eq.
Qed.

Lemma entry_after_Some (t : transaction) (a : account) :
  exists a', entry_after t (Some a) = Some a'
             /\ account_id a' = account_id a /\ account_name a' = account_name a.
Proof.
  unfold entry_after. simpl. repeat case_match; eauto.
Qed.

(** X1. Transactions on different accounts commute: applied in either
    order they leave the same map. *)
Theorem apply_transaction_commute (t1 t2 : transaction) (m : gmap Z account) :
  userID t1 <> userID t2 ->
  apply_transaction t1 (apply_transaction t2 m)
  = apply_transaction t2 (apply_transaction t1 m).
Proof.
  intros Hne. apply map_eq. intros k.
  destruct (decide (k = userID t1)) as [->|H1].
  - rewrite apply_transaction_lookup_eq.
    rewrite !(apply_transaction_lookup_ne t2) by done.
    by rewrite apply_transaction_lookup_eq.
  - rewrite (apply_transaction_lookup_ne t1) by done.
    destruct (decide (k = userID t2)) as [->|H2].
    + rewrite !apply_transaction_lookup_eq.
      by rewrite (apply_transaction_lookup_ne t1) by done.
    + by rewrite !apply_transaction_lookup_ne by done.
Qed.

Lemma apply_transaction_commute_witness :
  apply_transaction (Transaction 1 30.00%float 2 1)
    (apply_transaction (Transaction 2 50.00%float 1 2) accountList)
  = apply_transaction (Transaction 2 50.00%float 1 2)
      (apply_transaction (Transaction 1 30.00%float 2 1) accountList).
Proof.
  apply (apply_transaction_commute (Transaction 1 30.00%float 2 1)
           (Transaction 2 50.00%float 1 2) accountList).
  simpl. lia.
Defined.

(** X2. Whatever the stream, an entry of the map is never removed and keeps
    its id and its name: only balances change. *)
Theorem apply_stream_keeps_accounts (ts : list transaction) (m : gmap Z account)
    (k : Z) (a : account) :
  m !! k = Some a ->
  exists a', apply_stream ts m !! k = Some a'
             /\ account_id a' = account_id a /\ account_name a' = account_name a.
Proof.
  revert m a. induction ts as [|t ts IH]; intros m a Ha; [by exists a|].
  unfold apply_stream. simpl. fold (apply_stream ts (apply_transaction t m)).
  destruct (decide (k = userID t)) as [->|Hk].
  - destruct (entry_after_Some t a) as (a1 & H1 & Hid & Hname).
    destruct (IH (apply_transaction t m) a1) as (a' & H' & Hid' & Hname').
    { by rewrite apply_transaction_lookup_eq, Ha. }
    exists a'. repeat split; [done|congruence..].
  - apply IH. by rewrite apply_transaction_lookup_ne.
Qed.

Lemma apply_stream_keeps_accounts_witness :
  exists a',
    apply_stream [Transaction 1 30.00%float 2 1; Transaction 2 70.00%float 1 8;
                  Transaction 3 5.00%float 7 8] accountList !! 8 = Some a'
    /\ account_id a' = 7 /\ account_name a' = "Paula".
Proof.
  apply (apply_stream_keeps_accounts
           [Transaction 1 30.00%float 2 1; Transaction 2 70.00%float 1 8;
            Transaction 3 5.00%float 7 8]
           accountList 8 (Account 7 "Paula" 27000.00%float)).
  reflexivity.
Defined.

(** X3. A key that is absent from the map reads as the zero account: a
    deposit on it creates an entry with id 0, the empty name and
    [0 + amount]; a withdrawal creates one with [0 - amount] when
    [0 >= amount] and otherwise leaves the key absent. *)
Theorem missing_key_reads_zero_account (t : transaction) (m : gmap Z account) :
  m !! userID t = None ->
  deposit t m = <[userID t := Account 0 "" (0 + transaction_value t)%float]> m
  /\ (float_ge 0%float (transaction_value t) = true ->
        withdraw t m = <[userID t := Account 0 "" (0 - transaction_value t)%float]> m)
  /\ (float_ge 0%float (transaction_value t) = false ->
        withdraw t m = m /\ withdraw t m !! userID t = None).
Proof.
  intros Hm. unfold deposit, withdraw, deposit_write, withdraw_write, map_index.
  rewrite Hm. simpl. split; [done|]. split; intros ->; done.
Qed.

Lemma missing_key_reads_zero_account_witness :
  deposit (Transaction 1 30.00%float 2 9) accountList
  = <[9 := Account 0 "" 30.00%float]> accountList
  /\ withdraw (Transaction 1 30.00%float 1 9) accountList = accountList.
Proof.
  destruct (missing_key_reads_zero_account (Transaction 1 30.00%float 2 9) accountList
              eq_refl) as (Hd & _ & _).
  destruct (missing_key_reads_zero_account (Transaction 1 30.00%float 1 9) accountList
              eq_refl) as (_ & _ & Hw).
  split; [exact Hd | exact (proj1 (Hw eq_refl))].
Defined.

(** ** Not-a-number balances *)

Lemma float_ge_nan_l (v : float) : float_ge nan v = false.
Proof.
  unfold float_ge. rewrite FloatAxioms.leb_spec.
  change (Prim2SF nan) with S754_nan. by destruct (Prim2SF v) as [[]|[]| |[]].
Qed.

Lemma float_ge_nan_r (b : float) : float_ge b nan = false.
Proof.
  unfold float_ge. rewrite FloatAxioms.leb_spec. by change (Prim2SF nan) with S754_nan.
Qed.

Lemma float_add_nan_l (v : float) : (nan + v)%float = nan.
Proof.
  apply FloatAxioms.Prim2SF_inj. rewrite FloatAxioms.add_spec. by change (Prim2SF nan) with S754_nan.
Qed.

Lemma float_add_nan_r (b : float) : (b + nan)%float = nan.
Proof.
  apply FloatAxioms.Prim2SF_inj. rewrite FloatAxioms.add_spec. change (Prim2SF nan) with S754_nan.
  by destruct (Prim2SF b) as [[]|[]| |[]].
Qed.

Lemma balance_step_nan (t : transaction) : balance_step nan t = nan.
Proof.
  unfold balance_step. rewrite float_ge_nan_l, float_add_nan_l.
  by repeat case_match.
Qed.

(** X4. Nothing in the program rejects an amount that is not a number.  A
    withdrawal of NaN is always dropped; a deposit of NaN leaves the balance
    NaN, and from then on no withdrawal and no deposit on that account
    changes it again. *)
Theorem nan_balance_is_permanent (t : transaction) (ts : list transaction)
    (m : gmap Z account) (a : account) :
  m !! userID t = Some a ->
  transaction_value t = nan ->
  Forall (fun t' => userID t' = userID t) ts ->
  (transactionType t = 1 -> apply_transaction t m = m)
  /\ (transactionType t = 2 ->
        apply_stream (t :: ts) m !! userID t
        = Some (Account (account_id a) (account_name a) nan)).
Proof.
  intros Ha Hv Hts. split; intros Hty.
  - unfold apply_transaction, withdraw, withdraw_write.
    by rewrite Hty, Hv, float_ge_nan_r.
  - unfold apply_stream. simpl. fold (apply_stream ts (apply_transaction t m)).
    pose proof (apply_transaction_balance t m a Ha) as H1.
    unfold balance_step in H1. rewrite Hty, Hv, float_add_nan_r in H1.
    clear Ha Hty Hv. revert H1. generalize (apply_transaction t m). clear m.
    induction Hts as [|t' ts Ht' _ IH]; intros m H1; [done|].
    unfold apply_stream. simpl. fold (apply_stream ts (apply_transaction t' m)).
    apply IH. rewrite <- Ht' in H1 |- *.
    rewrite (apply_transaction_balance t' m _ H1). simpl.
    by rewrite balance_step_nan.
Qed.

Lemma nan_balance_is_permanent_witness :
  apply_transaction (Transaction 1 nan 1 5) accountList = accountList
  /\ apply_stream [Transaction 1 nan 2 5; Transaction 2 1.00%float 1 5;
                   Transaction 3 10.00%float 2 5] accountList !! 5
     = Some (Account 5 "Fernando" nan).
Proof.
  split.
  - exact (proj1 (nan_balance_is_permanent (Transaction 1 nan 1 5) [] accountList
                    (Account 5 "Fernando" 1.00%float) eq_refl eq_refl (Forall_nil_2 _))
             eq_refl).
  - apply (proj2 (nan_balance_is_permanent (Transaction 1 nan 2 5)
                    [Transaction 2 1.00%float 1 5; Transaction 3 10.00%float 2 5]
                    accountList (Account 5 "Fernando" 1.00%float) eq_refl eq_refl
                    ltac:(repeat constructor))).
    reflexivity.
Defined.

Lemma Value_inj {A : Type} (a b : A) : Value a = Value b -> a = b.
Proof.
  intros H.
  exact (f_equal (fun o => match o with Value x => x | _ => a end) H).
Qed.

Section Records.
Context {strconv : Strconv}.

#[local] Instance field_parses_dec (k : nat) (f : string) : Decision (field_parses k f).
Proof. unfold field_parses. destruct k as [|[|k]]; apply _. Defined.

(** X5. [produce] builds a transaction from a record exactly when the
    record has at least four fields and the first four parse; the
    transaction carries the four parsed values, and fields after the fourth
    are ignored. *)
Theorem parse_row_Value (row : list string) (t : transaction) :
  parse_row row = Value t <->
  exists f0 f1 f2 f3 rest,
    row = f0 :: f1 :: f2 :: f3 :: rest
    /\ Atoi f0 = Some (transaction_id t)
    /\ ParseFloat f1 = Some (transaction_value t)
    /\ Atoi f2 = Some (transactionType t)
    /\ Atoi f3 = Some (userID t).
Proof.
  unfold parse_row, row_index, or_fatal, bind. split.
  - destruct row as [|f0 [|f1 [|f2 [|f3 rest]]]]; simpl; try done;
      try (destruct (Atoi f0) eqn:H0; [|done]);
      try (destruct (ParseFloat f1) eqn:H1; [|done]);
      try (destruct (Atoi f2) eqn:H2; [|done]); try done.
    destruct (Atoi f3) eqn:H3; [|done]. intros H. apply Value_inj in H as <-.
    exists f0, f1, f2, f3, rest. simpl. by repeat split.
  - intros (f0 & f1 & f2 & f3 & rest & -> & H0 & H1 & H2 & H3). simpl.
    rewrite H0, H1, H2, H3. by destruct t.
Qed.

(** X6. A record with fewer than four fields, all of which parse, makes
    [produce] panic in the index expression of the first missing field (the
    nil record that [Read] returns with an error other than [io.EOF]
    included): the process ends with the map unchanged, by a panic and not
    by [log.Fatal]. *)
Theorem short_record_panics (s : state) (row : list string) (rows : list (list string)) :
  st_phase s = Running ->
  st_produce s = PRead (row :: rows) ->
  (length row < 4)%nat ->
  ~ malformed row ->
  step Producer s = Some (set_phase Panicked s)
  /\ st_accountList (set_phase Panicked s) = st_accountList s.
Proof.
  intros Hrun Hpc Hlen Hok. split; [|done].
  unfold step, step_produce. rewrite Hrun, Hpc.
  assert (forall k f, (k < 4)%nat -> row !! k = Some f -> field_parses k f) as Hall.
  { intros k f Hk Hf.
    destruct (decide (field_parses k f)) as [|Hno]; [done|].
    exfalso. apply Hok. by exists k, f. }
  assert (parse_row row = RuntimePanic) as ->; [|done].
  unfold parse_row, row_index, or_fatal, bind.
  destruct row as [|f0 [|f1 [|f2 [|f3 rest]]]]; simpl in *; try lia; try done.
  - destruct (Hall 0%nat f0) as [? ->]; [lia|done|]. done.
  - destruct (Hall 0%nat f0) as [? ->]; [lia|done|].
    destruct (Hall 1%nat f1) as [? ->]; [lia|done|]. done.
  - destruct (Hall 0%nat f0) as [? ->]; [lia|done|].
    destruct (Hall 1%nat f1) as [? ->]; [lia|done|].
    destruct (Hall 2%nat f2) as [? ->]; [lia|done|]. done.
Qed.

End Records.

Lemma short_record_panics_witness :
  step (strconv := decimal_strconv) Producer (boot 2 accountList [["1"; "30"]])
  = Some (set_phase Panicked (boot 2 accountList [["1"; "30"]])).
Proof.
  refine (proj1 (short_record_panics (strconv := decimal_strconv)
                   (boot 2 accountList [["1"; "30"]]) ["1"; "30"] []
                   eq_refl eq_refl _ _)).
  - simpl. lia.
  - intros (k & f & Hk & Hf & Hbad). apply Hbad.
    destruct k as [|[|k]]; simpl in Hf; [| |done];
      injection Hf as <-; vm_compute; by eexists.
Defined.

Section Progress.
Context {strconv : Strconv}.

Lemma holder_step (s : state) (i : nat) (pc : consume_pc) (t : transaction) :
  permits_inv (semaphores s) (st_consume s) ->
  st_consume s !! i = Some pc -> holds pc = Some t ->
  exists s', step_consume i s = Some s' /\ st_phase s' = st_phase s.
Proof.
  intros Hinv Hi Ht. unfold step_consume. rewrite Hi.
  destruct (permits_inv_held _ _ _ _ _ Hinv Hi Ht) as (w & Hw & Hcur).
  destruct pc; simpl in Ht; simplify_eq; try (by eexists).
  - repeat case_match; by eexists.
  - unfold finish, bind, Release. rewrite Hw, Hcur. simpl. by eexists.
Qed.

Lemma reachable_done_inv (n : nat) (seed : gmap Z account)
    (csv : list (list string)) (s : state) :
  reachable (boot n seed csv) s -> done_inv s.
Proof.
  revert s. apply reachable_invariant.
  - unfold done_inv. simpl. by apply count_pc_replicate.
  - apply step_done_inv.
Qed.

(** X7. A consumer that holds a permit is never blocked and never panics:
    in every state the program reaches its next step exists and leaves the
    process running.  In particular [Release] never releases more than is
    held, and its index is in range. *)
Theorem holder_never_blocked (n : nat) (seed : gmap Z account)
    (csv : list (list string)) (s : state) (i : nat) (pc : consume_pc)
    (t : transaction) :
  reachable (boot n seed csv) s ->
  st_phase s = Running ->
  st_consume s !! i = Some pc -> holds pc = Some t ->
  exists s', step (Consumer i) s = Some s' /\ st_phase s' = Running.
Proof.
  intros Hreach Hrun Hi Ht.
  destruct (holder_step s i pc t (reachable_permits_inv _ _ _ _ Hreach) Hi Ht)
    as (s' & Hs' & Hph).
  exists s'. unfold step. rewrite Hrun. split; [done|congruence].
Qed.

(** X8. With at least one consumer the program never deadlocks: in every
    state it reaches while the process is running, some goroutine can make
    a step. *)
Theorem no_deadlock (n : nat) (seed : gmap Z account)
    (csv : list (list string)) (s : state) :
  (1 <= n)%nat ->
  reachable (boot n seed csv) s ->
  st_phase s = Running ->
  exists a s', step a s = Some s'.
Proof.
  intros Hn Hreach Hrun.
  pose proof (reachable_permits_inv _ _ _ _ Hreach) as Hperm.
  pose proof (reachable_done_inv _ _ _ _ Hreach) as Hdone.
  destruct (reachable_lengths _ _ _ _ Hreach) as [_ Hlen].
  destruct (lookup_lt_is_Some_2 (st_consume s) 0) as [pc Hpc]; [lia|].
  assert (forall i pc t, st_consume s !! i = Some pc -> holds pc = Some t ->
                         exists a s', step a s = Some s') as Hholder.
  { intros i pc' t Hi Ht. destruct (holder_step s i pc' t Hperm Hi Ht) as (s' & Hs' & _).
    exists (Consumer i), s'. unfold step. by rewrite Hrun. }
  destruct (holds pc) as [t|] eqn:Hh; [by eapply Hholder|].
  destruct pc; simpl in Hh; try done.
  - destruct (st_produce s) as [[|row rows]|t rows|] eqn:Hp.
    + exists Producer. eexists. unfold step, step_produce. by rewrite Hrun, Hp.
    + exists Producer. unfold step, step_produce, finish. rewrite Hrun, Hp.
      destruct (parse_row row); by eexists.
    + exists (Consumer 0). eexists. unfold step, step_consume. by rewrite Hrun, Hpc, Hp.
    + exists (Consumer 0). eexists. unfold step, step_consume. by rewrite Hrun, Hpc, Hp.
  - destruct (sem_index (semaphores s) (permit_index transactionData)) as [w| |] eqn:Hw.
    + destruct (Acquire w) as [w'|] eqn:Hacq.
      * exists (Consumer 0). eexists. unfold step, step_consume, finish.
        by rewrite Hrun, Hpc, Hw, Hacq.
      * apply sem_index_Value in Hw as [Hidx Hw].
        destruct Hperm as [I1 I2]. destruct (I1 _ _ Hw) as (Hsz & Hc & Hh').
        unfold Acquire in Hacq. destruct (1 <=? _) eqn:Hfree; [done|].
        apply Z.leb_gt in Hfree.
        destruct (count_pc_positive (holds_at (Z.of_nat (Z.to_nat (permit_index transactionData))))
                    (st_consume s)) as (j & pcj & Hj & Hpj); [unfold holders in Hh'; lia|].
        unfold holds_at in Hpj. destruct (holds pcj) as [tj|] eqn:Htj; [|done].
        by eapply Hholder.
    + exists (Consumer 0). eexists. unfold step, step_consume, finish.
      by rewrite Hrun, Hpc, Hw.
    + exists (Consumer 0). eexists. unfold step, step_consume, finish.
      by rewrite Hrun, Hpc, Hw.
  - destruct (st_main s) eqn:Hm.
    + exists (Consumer 0). eexists. unfold step, step_consume. by rewrite Hrun, Hpc, Hm.
    + exists Main. eexists. unfold step, step_main. by rewrite Hrun, Hm.
  - exists Main. eexists. unfold step, step_main. rewrite Hrun.
    unfold done_inv in Hdone.
    pose proof (count_pc_one is_returned _ _ _ Hpc eq_refl).
    destruct (st_main s); [lia|done].
Qed.

End Progress.

Lemma holder_never_blocked_witness :
  exists s', step (strconv := decimal_strconv) (Consumer 0) contended_state = Some s'
             /\ st_phase s' = Running.
Proof.
  apply (holder_never_blocked (strconv := decimal_strconv) 2 accountList contended_csv
           contended_state 0 (CSwitch deposit_30_on_1) deposit_30_on_1).
  - exists contended_schedule. vm_compute. reflexivity.
  - reflexivity.
  - reflexivity.
  - reflexivity.
Defined.

Lemma no_deadlock_witness :
  exists a s', step (strconv := decimal_strconv) a contended_state = Some s'.
Proof.
  apply (no_deadlock (strconv := decimal_strconv) 2 accountList contended_csv
           contended_state).
  - lia.
  - exists contended_schedule. vm_compute. reflexivity.
  - reflexivity.
Defined.

Section Stream.
Context {strconv : Strconv}.

Lemma step_stream (a : actor) (s s' : state) :
  step a s = Some s' ->
  exists rows new,
    Forall2 (fun row t => parse_row row = Value t) rows new
    /\ unread (st_produce s) = rows ++ unread (st_produce s')
    /\ offered (st_produce s) ++ new = handoff a s ++ offered (st_produce s').
Proof.
  intros Hstep. pose proof (step_running _ _ _ Hstep) as Hrun.
  unfold step in Hstep. rewrite Hrun in Hstep. destruct a as [|i|].
  - unfold step_produce, finish in Hstep.
    destruct (st_produce s) as [[|row rows]|t rows|] eqn:Hp; simplify_eq.
    + by exists [], [].
    + destruct (parse_row row) as [t| |] eqn:Hrow; simplify_eq; simpl.
      * exists [row], [t]. repeat split; [|done..]. by repeat constructor.
      * exists [], []. simpl. by rewrite Hp.
      * exists [], []. simpl. by rewrite Hp.
  - unfold step_consume, finish, bind in Hstep. unfold handoff.
    destruct (st_consume s !! i) as [pc|] eqn:Hi; [|done].
    exists [], []. split; [constructor|].
    destruct pc; repeat case_match; simplify_eq; simpl;
      rewrite ?app_nil_r; try done; by repeat match goal with H : st_produce _ = _ |- _ => rewrite H end.
  - unfold step_main in Hstep. exists [], [].
    repeat case_match; simplify_eq; simpl; by rewrite app_nil_r.
Qed.

Lemma run_stream (sched : list actor) (s s' : state) :
  run sched s = Some s' ->
  exists rows new,
    Forall2 (fun row t => parse_row row = Value t) rows new
    /\ unread (st_produce s) = rows ++ unread (st_produce s')
    /\ offered (st_produce s) ++ new = handoffs sched s ++ offered (st_produce s').
Proof.
  revert s. induction sched as [|a sched IH]; intros s Hrun; simpl in *.
  - injection Hrun as <-. exists [], []. by rewrite app_nil_r.
  - destruct (step a s) as [s1|] eqn:Hstep; [|done].
    destruct (step_stream _ _ _ Hstep) as (rows1 & new1 & HF1 & Hu1 & Ho1).
    destruct (IH _ Hrun) as (rows2 & new2 & HF2 & Hu2 & Ho2).
    exists (rows1 ++ rows2), (new1 ++ new2). split; [by apply Forall2_app|]. split.
    + by rewrite Hu1, Hu2, app_assoc.
    + by rewrite app_assoc, Ho1, <- !app_assoc, Ho2.
Qed.

(** X9. The channel keeps the order of the file.  Along every schedule, the
    transactions that were handed to consumers, followed by the one
    [produce] is blocked sending, are the parses of the first records of
    the file, in file order and each once; the records still to be read
    are the rest of the file. *)
Theorem handoffs_in_file_order (n : nat) (seed : gmap Z account)
    (csv : list (list string)) (sched : list actor) (s : state) :
  run sched (boot n seed csv) = Some s ->
  exists rows,
    csv = rows ++ unread (st_produce s)
    /\ Forall2 (fun row t => parse_row row = Value t) rows
         (handoffs sched (boot n seed csv) ++ offered (st_produce s)).
Proof.
  intros Hrun. destruct (run_stream _ _ _ Hrun) as (rows & new & HF & Hu & Ho).
  simpl in Hu, Ho. exists rows. split; [done|]. by rewrite <- Ho.
Qed.

Lemma step_closed_inv (a : actor) (s s' : state) :
  closed_inv s -> step a s = Some s' -> closed_inv s'.
Proof.
  intros (Hc & Hm & Hf) Hstep. pose proof (step_running _ _ _ Hstep) as Hrun.
  unfold step in Hstep. rewrite Hrun in Hstep.
  assert (forall final, st_phase s <> Finished final) as Hnf by (intros ?; congruence).
  destruct a as [|i|].
  - unfold step_produce, finish in Hstep.
    destruct (st_produce s) as [[|row rows]|t rows|] eqn:Hp; simplify_eq.
    + split; [|split]; simpl; [done|done|]. intros final Hfin. exfalso. by apply (Hnf final).
    + assert (forall i pc, st_consume s !! i = Some pc -> pc <> CDone /\ pc <> CReturned)
        as Hnone.
      { intros i pc Hi. split; intros ->; by specialize (Hc _ _ Hi ltac:(eauto)). }
      assert (st_main s <> MReport) as Hnm by (intros H; by specialize (Hm H)).
      destruct (parse_row row); simplify_eq; (split; [|split]); simpl; try done;
        try (intros i pc Hi [-> | ->]; by destruct (Hnone _ _ Hi));
        try (intros final Hfin; simpl in Hfin; first [done | exfalso; by apply (Hnf final)]).
  - unfold step_consume, finish, bind in Hstep.
    destruct (st_consume s !! i) as [pc|] eqn:Hi; [|done].
    pose proof (lookup_lt_Some _ _ _ Hi) as Hlt.
    assert (pc = CDone \/ pc = CReturned -> st_produce s = PClosed) as Hci by eauto.
    destruct pc; repeat case_match; simplify_eq; (split; [|split]); simpl;
      try (intros j pcj Hj Hd; destruct (decide (j = i)) as [->|Hne];
           [rewrite list_lookup_insert_eq in Hj by done; injection Hj as <-;
            destruct Hd as [Hd|Hd]; try done; eauto
           |rewrite list_lookup_insert_ne in Hj by done;
            pose proof (Hc _ _ Hj Hd); congruence]);
      try (intros final Hfin; simpl in Hfin; first [done | exfalso; by apply (Hnf final)]);
      try (intros Hmm; pose proof (Hm Hmm); congruence);
      try (intros _; eauto; fail);
      try done.
  - unfold step_main in Hstep. destruct (st_main s) eqn:Hmn; simplify_eq.
    split; [|split]; simpl; [exact Hc|eauto|].
    intros fin Hfin. split; [done|].
    exact (f_equal (fun p => match p with Finished m => m | _ => fin end) (eq_sym Hfin)).
Qed.

End Stream.

Section Provenance.
Context {strconv : Strconv}.

Lemma reachable_closed_inv (n : nat) (seed : gmap Z account)
    (csv : list (list string)) (s : state) :
  reachable (boot n seed csv) s -> closed_inv s.
Proof.
  revert s. apply reachable_invariant.
  - split; [|split]; simpl; try done.
    intros i pc Hi Hd. apply lookup_replicate in Hi as [-> _]. by destruct Hd.
  - apply step_closed_inv.
Qed.

(** X10. [main] prints only after the channel has been closed: at that
    moment every record of the file has been parsed and handed to a
    consumer, in file order (whether or not the consumers have applied
    them). *)
Theorem report_after_all_records_handed_over (n : nat) (seed : gmap Z account)
    (csv : list (list string)) (sched : list actor) (s : state)
    (final : gmap Z account) :
  run sched (boot n seed csv) = Some s ->
  st_phase s = Finished final ->
  st_produce s = PClosed
  /\ Forall2 (fun row t => parse_row row = Value t) csv (handoffs sched (boot n seed csv)).
Proof.
  intros Hrun Hfin.
  destruct (reachable_closed_inv n seed csv s) as (_ & Hm & Hf); [by exists sched|].
  destruct (Hf _ Hfin) as [Hmr _]. specialize (Hm Hmr).
  destruct (run_stream _ _ _ Hrun) as (rows & new & HF & Hu & Ho).
  rewrite Hm in Hu, Ho. simpl in Hu, Ho. rewrite !app_nil_r in *. by subst.
Qed.

Lemma step_tx_inv (R : list string -> Prop) (P : transaction -> Prop)
    (a : actor) (s s' : state) :
  (forall row t, R row -> parse_row row = Value t -> P t) ->
  tx_inv R P s -> step a s = Some s' -> tx_inv R P s'.
Proof.
  intros HRP (Hu & Ho & Hc) Hstep. pose proof (step_running _ _ _ Hstep) as Hrun.
  unfold step in Hstep. rewrite Hrun in Hstep. destruct a as [|i|].
  - unfold step_produce, finish in Hstep.
    destruct (st_produce s) as [[|row rows]|t rows|] eqn:Hp; simplify_eq.
    + by split; [|split].
    + simpl in Hu. apply Forall_cons in Hu as [Hrow Hrows].
      destruct (parse_row row) as [t| |] eqn:Hparse; simplify_eq;
        (split; [|split]); simpl; rewrite ?Hp; simpl; eauto.
  - unfold step_consume, finish, bind in Hstep.
    destruct (st_consume s !! i) as [pc|] eqn:Hi; [|done].
    pose proof (lookup_lt_Some _ _ _ Hi) as Hlt.
    assert (forall t, pc_transaction pc = Some t -> P t) as Hpc by eauto.
    destruct pc; repeat case_match; simplify_eq; (split; [|split]); simpl;
      try done;
      try (match goal with H : st_produce s = _ |- _ => rewrite ?H; simpl in * end);
      try done;
      try (intros j pcj tj Hj Htj; destruct (decide (j = i)) as [->|Hne];
           [rewrite list_lookup_insert_eq in Hj by done; injection Hj as <-;
            simpl in Htj; simplify_eq; first [by apply Hpc | by apply Forall_inv in Ho]
           |rewrite list_lookup_insert_ne in Hj by done; by eapply Hc]).
  - unfold step_main in Hstep. repeat case_match; by simplify_eq.
Qed.

Lemma boot_tx_inv (R : list string -> Prop) (P : transaction -> Prop)
    (n : nat) (seed : gmap Z account) (csv : list (list string)) :
  Forall R csv -> tx_inv R P (boot n seed csv).
Proof.
  intros H. split; [done|]. split; [by constructor|].
  intros i pc t Hi Ht. simpl in Hi. by apply lookup_replicate in Hi as [-> _].
Qed.

Lemma permit_index_known (seed : gmap Z account) (t : transaction) :
  Z.of_nat (size seed) < 2 ^ 63 ->
  known_account seed t -> permit_index t = userID t - 1.
Proof.
  unfold known_account, permit_index, wrap_int. intros Hsz Hk.
  rewrite Z.mod_small by lia. lia.
Qed.

Lemma permit_index_int (t : transaction) (len : nat) :
  Z.of_nat len < 2 ^ 63 ->
  is_int (userID t) ->
  0 <= permit_index t < Z.of_nat len ->
  permit_index t = userID t - 1 /\ 1 <= userID t <= Z.of_nat len.
Proof.
  unfold is_int, permit_index, wrap_int. intros Hlen Hint Hidx.
  destruct (decide (userID t = - 2 ^ 63)) as [E|Hmin].
  - rewrite E in Hidx.
    change ((- 2 ^ 63 - 1 + 2 ^ 63) mod 2 ^ 64 - 2 ^ 63) with (2 ^ 63 - 1) in Hidx. lia.
  - rewrite Z.mod_small in * by lia. lia.
Qed.

(** X11. A file all of whose records have four parsable fields and name one
    of the seed accounts never makes the program fail: no state it reaches
    is one of [log.Fatal] or of a panic, whatever the number of consumers
    and the schedule. *)
Theorem well_formed_file_never_fails (n : nat) (seed : gmap Z account)
    (csv : list (list string)) (s : state) :
  Z.of_nat (size seed) < 2 ^ 63 ->
  Forall (good_record seed) csv ->
  reachable (boot n seed csv) s ->
  st_phase s <> Fatal /\ st_phase s <> Panicked.
Proof.
  intros Hsz Hcsv Hreach.
  assert ((st_phase s <> Fatal /\ st_phase s <> Panicked)
          /\ tx_inv (good_record seed) (known_account seed) s
          /\ permits_inv (semaphores s) (st_consume s)
          /\ length (semaphores s) = size seed) as [H _]; [|done].
  revert s Hreach. apply reachable_invariant.
  - split; [done|]. split; [by apply boot_tx_inv|]. split; [apply boot_permits_inv|].
    simpl. by rewrite length_replicate.
  - intros a s s' ([Hnf Hnp] & Htx & Hperm & Hlen) Hstep.
    assert (forall row t, good_record seed row -> parse_row row = Value t ->
                          known_account seed t) as HRP.
    { intros row t (t' & Hp & Hk) Hp'. rewrite Hp in Hp'. by apply Value_inj in Hp' as <-. }
    split; [|split; [by eapply step_tx_inv|split; [by eapply step_permits_inv|]]].
    2: { destruct (step_lengths _ _ _ Hstep) as [-> _]. done. }
    pose proof (step_running _ _ _ Hstep) as Hrun.
    destruct Htx as (Hu & Ho & Hc).
    unfold step in Hstep. rewrite Hrun in Hstep. destruct a as [|i|].
    + unfold step_produce, finish in Hstep.
      destruct (st_produce s) as [[|row rows]|t rows|] eqn:Hp; simplify_eq.
      * simpl. by rewrite Hrun.
      * simpl in Hu. apply Forall_cons in Hu as [(t & Hparse & _) _].
        rewrite Hparse in Hstep. simplify_eq. simpl. by rewrite Hrun.
    + unfold step_consume in Hstep.
      destruct (st_consume s !! i) as [pc|] eqn:Hi; [|done].
      destruct pc;
        try (repeat case_match; simplify_eq; simpl; by rewrite Hrun).
      * pose proof (Hc _ _ _ Hi eq_refl) as Hk.
        pose proof (permit_index_known _ _ Hsz Hk) as Hidx. unfold known_account in Hk.
        destruct (lookup_lt_is_Some_2 (semaphores s) (Z.to_nat (permit_index transactionData)))
          as [w Hw]; [lia|].
        unfold finish, sem_index in Hstep.
        rewrite (proj2 (Z.ltb_ge _ _)), Hw in Hstep by lia.
        destruct (Acquire w); simplify_eq. simpl. by rewrite Hrun.
      * destruct (permits_inv_held _ _ _ _ _ Hperm Hi eq_refl) as (w & Hw & Hcur).
        unfold finish, bind, Release in Hstep. rewrite Hw, Hcur in Hstep.
        simpl in Hstep. simplify_eq. simpl. by rewrite Hrun.
    + unfold step_main in Hstep. repeat case_match; by simplify_eq.
Qed.

End Provenance.

Lemma decimal_Atoi_in_range : atoi_in_range (strconv := decimal_strconv).
Proof.
  assert (forall neg s z, signed_value neg s = Some z -> is_int z) as Hsv.
  { intros neg s z. unfold signed_value, is_int.
    destruct s; [done|]. destruct (digits_value 0 _); [|done].
    destruct (_ && _) eqn:E; [|done]. intros [= <-].
    apply andb_true_iff in E as [E1 E2]. apply Z.leb_le in E1. apply Z.ltb_lt in E2. lia. }
  intros s z. simpl. unfold decimal_Atoi. repeat case_match; eauto.
Qed.

Section Identity.
Context {strconv : Strconv}.

Lemma parse_row_userID (row : list string) (t : transaction) :
  parse_row row = Value t -> exists f3, Atoi f3 = Some (userID t).
Proof.
  unfold parse_row, row_index, or_fatal, bind.
  destruct row as [|f0 [|f1 [|f2 [|f3 rest]]]]; simpl; try done;
    try (destruct (Atoi f0) eqn:H0; [|done]);
    try (destruct (ParseFloat f1) eqn:H1; [|done]);
    try (destruct (Atoi f2) eqn:H2; [|done]); try done.
  destruct (Atoi f3) eqn:H3; [|done]. intros H. apply Value_inj in H as <-.
  by exists f3.
Qed.

Lemma reachable_int_inv (n : nat) (seed : gmap Z account)
    (csv : list (list string)) (s : state) :
  atoi_in_range ->
  reachable (boot n seed csv) s ->
  tx_inv (fun _ => True) (fun t => is_int (userID t)) s.
Proof.
  intros Hatoi. revert s. apply reachable_invariant.
  - apply boot_tx_inv. by apply Forall_true.
  - intros a s s'. apply step_tx_inv.
    intros row t _ Hp. destruct (parse_row_userID _ _ Hp) as [f3 H3]. by eapply Hatoi.
Qed.

Lemma withdraw_write_id_name (t : transaction) (a : account) (m : gmap Z account) (k : Z) :
  m !! userID t = Some a ->
  id_name <$> withdraw_write t a m !! k = id_name <$> m !! k.
Proof.
  intros Ha. unfold withdraw_write. destruct (float_ge _ _); [|done].
  destruct (decide (k = userID t)) as [->|Hk].
  - by rewrite lookup_insert_eq, Ha.
  - by rewrite lookup_insert_ne.
Qed.

Lemma deposit_write_id_name (t : transaction) (a : account) (m : gmap Z account) (k : Z) :
  m !! userID t = Some a ->
  id_name <$> deposit_write t a m !! k = id_name <$> m !! k.
Proof.
  intros Ha. unfold deposit_write.
  destruct (decide (k = userID t)) as [->|Hk].
  - by rewrite lookup_insert_eq, Ha.
  - by rewrite lookup_insert_ne.
Qed.

(** X12. The program never creates or removes an account and never changes
    an id or a name.  When the keys 1..[size seed] are in the seed map, in
    every state the program reaches each key holds an entry exactly when
    the seed map does, with the id and the name of the seed entry: only
    balances differ. *)
Theorem accounts_keep_identity (n : nat) (seed : gmap Z account)
    (csv : list (list string)) (s : state) :
  atoi_in_range ->
  Z.of_nat (size seed) < 2 ^ 63 ->
  (forall k, 1 <= k <= Z.of_nat (size seed) -> is_Some (seed !! k)) ->
  reachable (boot n seed csv) s ->
  forall k, id_name <$> st_accountList s !! k = id_name <$> seed !! k.
Proof.
  intros Hatoi Hsz Hkeys Hreach.
  assert ((forall k, id_name <$> st_accountList s !! k = id_name <$> seed !! k)
          /\ reachable (boot n seed csv) s) as [H _]; [|done].
  revert s Hreach. apply reachable_invariant; [split; [done|apply reachable_refl]|].
  intros a s s' [HJ Hreach] Hstep.
  split; [|eapply reachable_trans; [done|by exists [a]; simpl; rewrite Hstep]].
  pose proof (reachable_int_inv _ _ _ _ Hatoi Hreach) as (_ & _ & Hint).
  pose proof (reachable_permits_inv _ _ _ _ Hreach) as [_ I2].
  pose proof (reachable_cycle_inv _ _ _ _ Hreach) as Hcyc.
  destruct (reachable_lengths _ _ _ _ Hreach) as [Hlen _].
  assert (forall i pc t, st_consume s !! i = Some pc -> holds pc = Some t ->
                         exists a0, st_accountList s !! userID t = Some a0) as Hentry.
  { intros i pc t Hi Ht. destruct (I2 _ _ _ Hi Ht) as [Hidx Hlt].
    assert (pc_transaction pc = Some t) as Hpt by (by destruct pc).
    destruct (permit_index_int t (size seed) Hsz (Hint _ _ _ Hi Hpt)) as [_ Hu]; [lia|].
    destruct (Hkeys _ Hu) as [a0 Ha0]. specialize (HJ (userID t)).
    rewrite Ha0 in HJ. destruct (st_accountList s !! userID t); [by eexists|done]. }
  pose proof (step_running _ _ _ Hstep) as Hrun.
  unfold step in Hstep. rewrite Hrun in Hstep. destruct a as [|i|].
  - unfold step_produce, finish in Hstep. repeat case_match; by simplify_eq.
  - unfold step_consume, finish, bind in Hstep.
    destruct (st_consume s !! i) as [pc|] eqn:Hi; [|done].
    pose proof (Hcyc _ _ Hi) as Hok.
    destruct pc; repeat case_match; simplify_eq; simpl; try done; intros k.
    + destruct (Hentry _ _ _ Hi eq_refl) as [a0 Ha0]. destruct Hok as [_ ->].
      rewrite (map_index_Some _ _ _ Ha0). by rewrite withdraw_write_id_name.
    + destruct (Hentry _ _ _ Hi eq_refl) as [a0 Ha0]. destruct Hok as [_ ->].
      rewrite (map_index_Some _ _ _ Ha0). by rewrite deposit_write_id_name.
  - unfold step_main in Hstep. repeat case_match; by simplify_eq.
Qed.

(** X13. Only the account decides who waits.  A consumer that has received
    a transaction cannot take its permit exactly when another consumer
    holds the permit for a transaction on the same account; transactions on
    different accounts never make each other wait. *)
Theorem acquire_blocked_by_same_account (n : nat) (seed : gmap Z account)
    (csv : list (list string)) (s : state) (i : nat) (t : transaction) :
  atoi_in_range ->
  Z.of_nat (size seed) < 2 ^ 63 ->
  reachable (boot n seed csv) s ->
  st_phase s = Running ->
  st_consume s !! i = Some (CAcquire t) ->
  step (Consumer i) s = None
  <-> exists j pc t', j <> i /\ st_consume s !! j = Some pc
                      /\ holds pc = Some t' /\ userID t' = userID t.
Proof.
  intros Hatoi Hsz Hreach Hrun Hi.
  pose proof (reachable_int_inv _ _ _ _ Hatoi Hreach) as (_ & _ & Hint).
  pose proof (reachable_permits_inv _ _ _ _ Hreach) as Hperm.
  destruct (reachable_lengths _ _ _ _ Hreach) as [Hlen _].
  unfold step, step_consume, finish. rewrite Hrun, Hi. split.
  - destruct (sem_index (semaphores s) (permit_index t)) as [w| |] eqn:Hw; [|done..].
    destruct (Acquire w) as [w'|] eqn:Hacq; [done|]. intros _.
    apply sem_index_Value in Hw as [Hidx Hw].
    pose proof (lookup_lt_Some _ _ _ Hw) as Hlt.
    destruct Hperm as [I1 I2]. destruct (I1 _ _ Hw) as (Hs & Hc & Hh).
    unfold Acquire in Hacq. destruct (1 <=? _) eqn:Hfree; [done|].
    apply Z.leb_gt in Hfree. rewrite Z2Nat.id in Hh by done.
    destruct (count_pc_positive (holds_at (permit_index t)) (st_consume s))
      as (j & pcj & Hj & Hpj); [unfold holders in Hh; lia|].
    unfold holds_at in Hpj. destruct (holds pcj) as [tj|] eqn:Htj; [|done].
    apply bool_decide_eq_true_1 in Hpj.
    exists j, pcj, tj. split; [intros ->; rewrite Hi in Hj; by simplify_eq|].
    split; [done|]. split; [done|].
    assert (pc_transaction pcj = Some tj) as Hptj by (by destruct pcj).
    destruct (permit_index_int tj (size seed) Hsz (Hint _ _ _ Hj Hptj)) as [E1 _]; [lia|].
    destruct (permit_index_int t (size seed) Hsz (Hint _ _ _ Hi eq_refl)) as [E2 _]; [lia|].
    lia.
  - intros (j & pcj & tj & Hne & Hj & Htj & Hu).
    destruct (permits_inv_held _ _ _ _ _ Hperm Hj Htj) as (w & Hw & Hcur).
    assert (permit_index tj = permit_index t) as Hidx
      by (unfold permit_index; by rewrite Hu).
    rewrite Hidx in Hw. rewrite Hw.
    apply sem_index_Value in Hw as [_ Hw]. destruct Hperm as [I1 _].
    destruct (I1 _ _ Hw) as (Hs & _ & _).
    unfold Acquire. rewrite Hs, Hcur. done.
Qed.

End Identity.

Section Sequential.
Context {strconv : Strconv}.

Lemma state_eq (s1 s2 : state) :
  st_phase s1 = st_phase s2 -> st_produce s1 = st_produce s2 ->
  st_consume s1 = st_consume s2 -> st_main s1 = st_main s2 ->
  semaphores s1 = semaphores s2 -> st_accountList s1 = st_accountList s2 ->
  s1 = s2.
Proof. destruct s1, s2. simpl. by intros -> -> -> -> -> ->. Qed.

Lemma sequential_rounds_run (csv : list (list string)) (ts : list transaction) (s : state) :
  Forall2 (fun row t => parse_row row = Value t) csv ts ->
  st_phase s = Running ->
  st_produce s = PRead csv ->
  st_consume s !! 0%nat = Some CRange ->
  Forall (fun t => sem_index (semaphores s) (permit_index t) = Value (NewWeighted 1)) ts ->
  run (sequential_rounds ts) s
  = Some (set_accountList (apply_stream ts (st_accountList s)) (set_produce (PRead []) s)).
Proof.
  intros Hparse. revert s.
  induction Hparse as [|row t rows ts Hrow _ IH]; intros s Hrun Hp Hc Hsem.
  - simpl. f_equal. apply state_eq; simpl; by rewrite ?Hp.
  - apply Forall_cons in Hsem as [Hw Hsem].
    change (sequential_rounds (t :: ts))
      with ([Producer; Consumer 0] ++ consume_cycle 0 t ++ sequential_rounds ts).
    rewrite run_app.
    assert (run [Producer; Consumer 0] s
            = Some (set_consume 0 (CAcquire t) (set_produce (PRead rows) s))) as ->.
    { simpl. unfold step at 1, step_produce, finish. rewrite Hrun, Hp, Hrow.
      unfold step, step_consume. simpl. rewrite Hrun, Hc. simpl.
      done. }
    rewrite run_app.
    pose proof (lookup_lt_Some _ _ _ Hc) as Hlt.
    destruct (consume_cycle_applies
                (set_consume 0 (CAcquire t) (set_produce (PRead rows) s)) 0 t
                (NewWeighted 1)) as (s3 & -> & Hm & Hcs & Hsems & Hph & Hpr & Hmn);
      [done|by apply list_lookup_insert_eq|done|done|done|].
    simpl in Hm, Hcs, Hsems, Hpr, Hmn.
    rewrite list_insert_insert_eq, (list_insert_id _ _ _ Hc) in Hcs.
    rewrite IH; [|done|done|by rewrite Hcs|by rewrite Hsems].
    f_equal. apply state_eq; simpl; [congruence|done|done|done|done|].
    by rewrite Hm.
Qed.

(** X14. When one consumer does all the work the program computes
    [apply_stream].  For a file whose records all parse and name seed
    accounts, and at least one consumer, the schedule
    [sequential_schedule] runs to the end and [main] prints the seed map
    with the transactions of the file applied in file order. *)
Theorem sequential_schedule_prints_apply_stream (n : nat) (seed : gmap Z account)
    (csv : list (list string)) (ts : list transaction) :
  (1 <= n)%nat ->
  Z.of_nat (size seed) < 2 ^ 63 ->
  Forall2 (fun row t => parse_row row = Value t) csv ts ->
  Forall (known_account seed) ts ->
  exists s,
    run (sequential_schedule ts) (boot n seed csv) = Some s
    /\ st_phase s = Finished (apply_stream ts seed)
    /\ st_accountList s = apply_stream ts seed.
Proof.
  intros Hn Hsz Hparse Hknown. unfold sequential_schedule. rewrite run_app.
  assert (st_consume (boot n seed csv) !! 0%nat = Some CRange) as Hc.
  { simpl. apply lookup_replicate_2. lia. }
  rewrite (sequential_rounds_run csv ts); [|done|done|done|done|].
  - eexists. simpl. unfold step, step_produce, step_consume, step_main. simpl.
    rewrite lookup_replicate_2 by lia. simpl.
    rewrite list_lookup_insert_eq by (rewrite length_replicate; lia). simpl.
    done.
  - eapply Forall_impl; [exact Hknown|]. intros t Hk. simpl.
    rewrite (permit_index_known _ _ Hsz Hk). unfold known_account in Hk.
    unfold sem_index. rewrite (proj2 (Z.ltb_ge _ _)) by lia.
    rewrite lookup_replicate_2 by lia. done.
Qed.

End Sequential.

Section Solo.
Context {strconv : Strconv}.

Lemma apply_stream_snoc (d : list transaction) (t : transaction) (m : gmap Z account) :
  apply_stream (d ++ [t]) m = apply_transaction t (apply_stream d m).
Proof. unfold apply_stream. by rewrite foldl_app. Qed.

Lemma step_solo_inv (seed : gmap Z account) (csv : list (list string))
    (a : actor) (s s' : state) :
  solo_inv seed csv s -> step a s = Some s' -> solo_inv seed csv s'.
Proof.
  intros (rows & handed & pc & Hcsv & HF & Hcs & Hm) Hstep.
  pose proof (step_running _ _ _ Hstep) as Hrun.
  unfold step in Hstep. rewrite Hrun in Hstep. destruct a as [|i|].
  - unfold step_produce, finish in Hstep.
    destruct (st_produce s) as [[|row rest]|t rest|] eqn:Hp; (try done; try (injection Hstep as <-)).
    + by exists rows, handed, pc.
    + simpl in Hcsv, HF. rewrite app_nil_r in HF.
      destruct (parse_row row) as [t| |] eqn:Hrow; (try done; try (injection Hstep as <-)).
      * exists (rows ++ [row]), handed, pc. simpl.
        split; [by rewrite <- app_assoc|]. split; [|done].
        apply Forall2_app; [done|]. by repeat constructor.
      * exists rows, handed, pc. simpl. rewrite Hp. simpl. by rewrite app_nil_r.
      * exists rows, handed, pc. simpl. rewrite Hp. simpl. by rewrite app_nil_r.
  - unfold step_consume, finish, bind in Hstep. rewrite Hcs in Hstep.
    destruct i as [|i]; [|done]. simpl in Hstep.
    destruct pc; simpl in Hm.
    + (* CRange *)
      destruct (st_produce s) as [rest|t rest|] eqn:Hp; (try done; try (injection Hstep as <-)); simpl in *.
      * exists rows, (handed ++ [t]), (CAcquire t). simpl. rewrite Hcs.
        rewrite app_nil_r. repeat split; try done. by exists handed.
      * exists rows, handed, CDone. simpl. rewrite Hp, Hcs. done.
    + (* CAcquire *)
      repeat case_match; (try done; try (injection Hstep as <-));
        first [ by exists rows, handed, (CSwitch transactionData); simpl; rewrite Hcs
              | by exists rows, handed, (CAcquire transactionData) ].
    + (* CSwitch *)
      destruct Hm as (d & -> & Hm).
      destruct (transactionType transactionData) as [|[p|[p|p|]|]|] eqn:Hty; (try done; try (injection Hstep as <-));
        first [ by exists rows, (d ++ [transactionData]), (CWithdrawRead transactionData);
                   simpl; rewrite Hcs; eauto 10
              | by exists rows, (d ++ [transactionData]), (CDepositRead transactionData);
                   simpl; rewrite Hcs; eauto 10
              | exists rows, (d ++ [transactionData]), (CRelease transactionData);
                simpl; rewrite Hcs; repeat split; try done;
                rewrite apply_stream_snoc, <- Hm; unfold apply_transaction;
                by rewrite Hty ].
    + (* CWithdrawRead *)
      destruct Hm as (d & -> & Hm & Hty). (try done; try (injection Hstep as <-)).
      exists rows, (d ++ [transactionData]),
        (CWithdrawWrite transactionData (map_index (st_accountList s) (userID transactionData))).
      simpl. rewrite Hcs. eauto 10.
    + (* CWithdrawWrite *)
      destruct Hm as (d & -> & Hm & Hty & ->). (try done; try (injection Hstep as <-)).
      exists rows, (d ++ [transactionData]), (CRelease transactionData).
      simpl. rewrite Hcs. repeat split; try done.
      rewrite apply_stream_snoc, <- Hm. unfold apply_transaction. by rewrite Hty.
    + (* CDepositRead *)
      destruct Hm as (d & -> & Hm & Hty). (try done; try (injection Hstep as <-)).
      exists rows, (d ++ [transactionData]),
        (CDepositWrite transactionData (map_index (st_accountList s) (userID transactionData))).
      simpl. rewrite Hcs. eauto 10.
    + (* CDepositWrite *)
      destruct Hm as (d & -> & Hm & Hty & ->). (try done; try (injection Hstep as <-)).
      exists rows, (d ++ [transactionData]), (CRelease transactionData).
      simpl. rewrite Hcs. repeat split; try done.
      rewrite apply_stream_snoc, <- Hm. unfold apply_transaction. by rewrite Hty.
    + (* CRelease *)
      repeat case_match; (try done; try (injection Hstep as <-));
        first [ by exists rows, handed, CRange; simpl; rewrite Hcs
              | by exists rows, handed, (CRelease transactionData) ].
    + (* CDone *)
      destruct (st_main s); (try done; try (injection Hstep as <-)).
      exists rows, handed, CReturned. simpl. by rewrite Hcs.
    + done.
  - unfold step_main in Hstep. destruct (st_main s); (try done; try (injection Hstep as <-)).
    by exists rows, handed, pc.
Qed.

(** X15. With a single consumer the printed map does not depend on the
    schedule: whenever [main] has printed, every record of the file had
    parsed, and the printed map is the seed map with the transactions of
    the file applied one after the other in file order. *)
Theorem single_consumer_prints_apply_stream (seed : gmap Z account)
    (csv : list (list string)) (s : state) (final : gmap Z account) :
  reachable (boot 1 seed csv) s ->
  st_phase s = Finished final ->
  exists ts,
    Forall2 (fun row t => parse_row row = Value t) csv ts
    /\ final = apply_stream ts seed.
Proof.
  intros Hreach Hfin.
  assert (solo_inv seed csv s) as (rows & handed & pc & Hcsv & HF & Hcs & Hm).
  { revert s Hreach Hfin. intros s Hreach _. revert s Hreach.
    apply reachable_invariant; [|apply step_solo_inv].
    exists [], [], CRange. simpl. repeat split; constructor. }
  destruct (reachable_closed_inv _ _ _ _ Hreach) as (_ & Hclosed & Hf).
  destruct (Hf _ Hfin) as [Hmr ->]. specialize (Hclosed Hmr).
  pose proof (reachable_done_inv _ _ _ _ Hreach) as Hdone.
  unfold done_inv in Hdone. rewrite Hmr, Hcs in Hdone. simpl in Hdone.
  rewrite Hclosed in Hcsv, HF. simpl in Hcsv, HF. rewrite !app_nil_r in *. subst rows.
  exists handed. split; [done|].
  destruct pc; simpl in Hdone; try lia. exact Hm.
Qed.

End Solo.

(** ** The further properties on concrete inputs *)

Lemma accountList_keys (k : Z) :
  1 <= k <= Z.of_nat (size accountList) -> is_Some (accountList !! k).
Proof.
  change (size accountList) with 8%nat. intros Hk.
  assert (k = 1 \/ k = 2 \/ k = 3 \/ k = 4 \/ k = 5 \/ k = 6 \/ k = 7 \/ k = 8)
    as H by lia.
  repeat (destruct H as [->|H]; [by eexists|]). subst. by eexists.
Qed.

Lemma accountList_size_small : Z.of_nat (size accountList) < 2 ^ 63.
Proof. change (size accountList) with 8%nat. lia. Qed.

Lemma contended_state_reachable :
  reachable (strconv := decimal_strconv) (boot 2 accountList contended_csv) contended_state.
Proof. exists contended_schedule. vm_compute. reflexivity. Qed.

Lemma contended_csv_good :
  Forall (good_record (strconv := decimal_strconv) accountList) contended_csv.
Proof.
  repeat constructor.
  - exists deposit_30_on_1. split; [vm_compute; reflexivity|].
    unfold known_account. change (size accountList) with 8%nat. simpl. lia.
  - exists withdraw_20_on_1. split; [vm_compute; reflexivity|].
    unfold known_account. change (size accountList) with 8%nat. simpl. lia.
Qed.

Lemma handoffs_in_file_order_witness :
  exists rows,
    contended_csv = rows ++ unread (st_produce contended_state)
    /\ Forall2 (fun row t => parse_row (strconv := decimal_strconv) row = Value t) rows
         (handoffs (strconv := decimal_strconv) contended_schedule
            (boot 2 accountList contended_csv)
          ++ offered (st_produce contended_state)).
Proof.
  apply (handoffs_in_file_order (strconv := decimal_strconv) 2 accountList contended_csv
           contended_schedule contended_state).
  vm_compute. reflexivity.
Defined.

Lemma report_after_all_records_handed_over_witness :
  st_produce early_report_state = PClosed
  /\ Forall2 (fun row t => parse_row (strconv := decimal_strconv) row = Value t)
       one_deposit_csv
       (handoffs (strconv := decimal_strconv) early_report_schedule
          (boot 50 accountList one_deposit_csv)).
Proof.
  apply (report_after_all_records_handed_over (strconv := decimal_strconv)
           50 accountList one_deposit_csv early_report_schedule early_report_state
           accountList).
  - vm_compute. reflexivity.
  - vm_compute. reflexivity.
Defined.

Lemma well_formed_file_never_fails_witness :
  st_phase contended_state <> Fatal /\ st_phase contended_state <> Panicked.
Proof.
  exact (well_formed_file_never_fails (strconv := decimal_strconv) 2 accountList
           contended_csv contended_state accountList_size_small contended_csv_good
           contended_state_reachable).
Defined.

Lemma accounts_keep_identity_witness :
  id_name <$> st_accountList contended_state !! 8 = id_name <$> accountList !! 8.
Proof.
  exact (accounts_keep_identity (strconv := decimal_strconv) 2 accountList
           contended_csv contended_state decimal_Atoi_in_range accountList_size_small
           accountList_keys contended_state_reachable 8).
Defined.

Lemma acquire_blocked_by_same_account_witness :
  step (strconv := decimal_strconv) (Consumer 1) contended_state = None
  <-> exists j pc t', j <> 1%nat /\ st_consume contended_state !! j = Some pc
                      /\ holds pc = Some t' /\ userID t' = userID withdraw_20_on_1.
Proof.
  exact (acquire_blocked_by_same_account (strconv := decimal_strconv) 2 accountList
           contended_csv contended_state 1 withdraw_20_on_1 decimal_Atoi_in_range
           accountList_size_small contended_state_reachable eq_refl eq_refl).
Defined.

Lemma sequential_schedule_prints_apply_stream_witness :
  exists s,
    run (strconv := decimal_strconv)
      (sequential_schedule [deposit_30_on_1; withdraw_20_on_1])
      (boot 2 accountList contended_csv) = Some s
    /\ st_phase s = Finished (apply_stream [deposit_30_on_1; withdraw_20_on_1] accountList)
    /\ st_accountList s = apply_stream [deposit_30_on_1; withdraw_20_on_1] accountList.
Proof.
  apply (sequential_schedule_prints_apply_stream (strconv := decimal_strconv)
           2 accountList contended_csv [deposit_30_on_1; withdraw_20_on_1]).
  - lia.
  - exact accountList_size_small.
  - repeat constructor; vm_compute; reflexivity.
  - repeat constructor; unfold known_account; change (size accountList) with 8%nat;
      simpl; lia.
Defined.

Lemma single_consumer_prints_apply_stream_witness :
  exists ts,
    Forall2 (fun row t => parse_row (strconv := decimal_strconv) row = Value t)
      contended_csv ts
    /\ st_accountList solo_report_state = apply_stream ts accountList.
Proof.
  apply (single_consumer_prints_apply_stream (strconv := decimal_strconv) accountList
           contended_csv solo_report_state (st_accountList solo_report_state)).
  - exists (sequential_schedule [deposit_30_on_1; withdraw_20_on_1]).
    vm_compute. reflexivity.
  - vm_compute. reflexivity.
Defined.

Lemma write_applies_transaction_witness :
  Account 1 "Yuri" 200000.00%float
  = map_index (st_accountList deposit_write_state) (userID deposit_30_on_1)
  /\ st_accountList
       (set_consume 0 (CRelease deposit_30_on_1)
          (set_accountList
             (deposit_write deposit_30_on_1 (Account 1 "Yuri" 200000.00%float)
                (st_accountList deposit_write_state)) deposit_write_state))
     = apply_transaction deposit_30_on_1 (st_accountList deposit_write_state).
Proof.
  apply (write_applies_transaction (strconv := decimal_strconv) 2 accountList
           one_deposit_csv deposit_write_state _ 0
           (CDepositWrite deposit_30_on_1 (Account 1 "Yuri" 200000.00%float))
           deposit_30_on_1 (Account 1 "Yuri" 200000.00%float)).
  - exists deposit_write_schedule. vm_compute. reflexivity.
  - vm_compute. reflexivity.
  - by right.
  - vm_compute. reflexivity.
Defined.

Lemma report_leaves_consumers_behind_witness :
  exists i pc, st_consume early_report_state !! i = Some pc /\ pc <> CReturned.
Proof.
  apply (report_leaves_consumers_behind (strconv := decimal_strconv) 50 accountList
           one_deposit_csv early_report_state accountList).
  - lia.
  - exists early_report_schedule. vm_compute. reflexivity.
  - vm_compute. reflexivity.
Defined.
